(** * golang-mixins/logging: the logrus adapter, embedded and verified

    The development follows [src/logrus/logging.go] (package [logrus] of the
    repository) and the interface file of package [logging].  Go objects that
    are shared through pointers (map objects, [*log.Logger], [*sync.RWMutex],
    [*os.File]) live in an explicit store, the [World]; every method of the
    adapter is a computation in a small state monad over that store. *)

From Stdlib Require Import ZArith Ascii String List Lia.
From stdpp Require Import base option list gmap strings fin_maps pretty.

Local Open Scope Z_scope.
Local Open Scope string_scope.
Local Open Scope list_scope.

(* ===================================================================== *)
(** * Go values *)
(* ===================================================================== *)

(** Addresses of heap objects: the index of the object in its store. *)
Abbreviation loc := nat.

(** [chan context.Context]: [None] is the nil channel. *)
Definition chan := option nat.

(** ** The logrus library (imported as [log]) *)

(** Modelled from the spec: logrus ([github.com/sirupsen/logrus]) is an
    imported library, not part of src/.  [log.Level] is its level enum, in
    the library's order of decreasing severity. *)
Inductive log_Level :=
| log_PanicLevel | log_FatalLevel | log_ErrorLevel | log_WarnLevel
| log_InfoLevel | log_DebugLevel | log_TraceLevel.

(** The numeric value of a level ([PanicLevel] is 0). *)
Definition log_Level_num (l : log_Level) : Z :=
  match l with
  | log_PanicLevel => 0 | log_FatalLevel => 1 | log_ErrorLevel => 2
  | log_WarnLevel => 3 | log_InfoLevel => 4 | log_DebugLevel => 5
  | log_TraceLevel => 6
  end.

(** Modelled from the spec: a value satisfying the hook capability
    ([log.Hook]: methods [Levels] and [Fire]); the hook is identified by
    [hook_id], [Fire] is not run by any code of the package. *)
Record log_Hook := { hook_id : nat; Levels : list log_Level }.

(** Modelled from the spec: [log.Entry], reduced to the two fields the
    package reads: the logger it belongs to and the map object [Data]. *)
Record log_Entry := { Logger : loc; Data : loc }.

(** [type entry struct { *log.Entry; breaker chan context.Context }].
    The embedded pointer is never nil: the only constructors of the package
    ([WithValues] of either receiver) fill it with the result of
    [WithFields]. *)
Record entry := { e_Entry : log_Entry; e_breaker : chan }.

(** Dynamic values of type [interface{}], as far as the package
    distinguishes them: the untyped nil, plain data, values whose dynamic
    type implements [log.Hook], and the two pointer types that end up in a
    context ([None] is the typed nil pointer). *)
Inductive any :=
| nil_any
| int_any (z : Z)
| string_any (s : string)
| hook_any (h : log_Hook)
| entry_ptr (p : option entry)
| log_Entry_ptr (p : option log_Entry).

(** [logging.Values] and [log.Fields] are both [map[string]interface{}];
    the conversions [log.Fields(v)] and [logging.Values(d)] are the
    identity on the map object. *)
Abbreviation Values := (gmap string any).
Abbreviation log_Fields := (gmap string any).

(** ** Errors ([xerrors], [os], [fmt]) *)

(** The error values the package builds or receives.
    - [errorString]: [xerrors.New(s)], or [fmt.Errorf] once formatted;
    - [wrapError]: [xerrors.Errorf("<msg>: %w", ..., err)];
    - [PathError]: the [*os.PathError] of a failed [os.OpenFile];
    - [valueError]: [xerrors.Errorf("<pre>%+v<post>", v)], kept with the
      value it names;
    - [quotedError]: [fmt.Errorf("<pre>%q", s)], kept with the string it
      quotes. *)
Inductive error :=
| errorString (s : string)
| wrapError (msg : string) (err : error)
| PathError (Op Path Err : string)
| valueError (pre : string) (v : any) (post : string)
| quotedError (pre : string) (s : string).

(** The digits of [strconv]'s lower-case hexadecimal. *)
Definition lowerhex (n : nat) : ascii :=
  nth n (list_ascii_of_string "0123456789abcdef") "0"%char.

(** What [strconv.Quote] writes for one byte below 0x80: a backslash in
    front of the double quote and of the backslash, the byte itself when
    it is printable, the letter escapes of the control characters that
    have one, and [\x] with two hexadecimal digits for the other control
    characters.  [None] for a byte from 0x80 on: what is written for the
    character it belongs to depends on the Unicode tables. *)
Definition quote_byte (c : ascii) : option string :=
  let n := nat_of_ascii c in
  if Nat.eqb n 34 then Some (String "092" (String "034" EmptyString))
  else if Nat.eqb n 92 then Some (String "092" (String "092" EmptyString))
  else if Nat.leb 32 n && Nat.ltb n 127 then Some (String c EmptyString)
  else if Nat.eqb n 7 then Some (String "092" "a")
  else if Nat.eqb n 8 then Some (String "092" "b")
  else if Nat.eqb n 12 then Some (String "092" "f")
  else if Nat.eqb n 10 then Some (String "092" "n")
  else if Nat.eqb n 13 then Some (String "092" "r")
  else if Nat.eqb n 9 then Some (String "092" "t")
  else if Nat.eqb n 11 then Some (String "092" "v")
  else if Nat.ltb n 128 then
    Some (String "092" (String "x" (String (lowerhex (n / 16))
                                      (String (lowerhex (n mod 16)) EmptyString))))
  else None.

Fixpoint quote_bytes (s : string) : option string :=
  match s with
  | EmptyString => Some EmptyString
  | String c rest =>
    match quote_byte c, quote_bytes rest with
    | Some a, Some b => Some (a +:+ b)
    | _, _ => None
    end
  end.

(** [%q] of a string (that is [strconv.Quote]): the escaped bytes between
    double quotes; [None] when the string has a byte from 0x80 on. *)
Definition fmt_q (s : string) : option string :=
  match quote_bytes s with
  | Some b => Some (String "034" (b +:+ String "034" EmptyString))
  | None => None
  end.

(** [%+v] of a dynamic value, where the text does not depend on machine
    addresses or on types outside the package. *)
Definition fmt_plus_v (v : any) : option string :=
  match v with
  | nil_any => Some "<nil>"
  | int_any z => Some (pretty z)
  | string_any s => Some s
  | entry_ptr None => Some "<nil>"
  | log_Entry_ptr None => Some "<nil>"
  | _ => None
  end.

(** The [Error()] method: [msg: <text of err>] for a wrapped error (the
    format of [xerrors.Errorf] ends in [": %w"]), [op path: err] for a
    [*os.PathError].  [None] where the text is not determined by the
    model. *)
Fixpoint Error (e : error) : option string :=
  match e with
  | errorString s => Some s
  | wrapError msg err => s ← Error err; Some (msg +:+ ": " +:+ s)
  | PathError op path err => Some (op +:+ " " +:+ path +:+ ": " +:+ err)
  | valueError pre v post => s ← fmt_plus_v v; Some (pre +:+ s +:+ post)
  | quotedError pre s => q ← fmt_q s; Some (pre +:+ q)
  end.

(** The beginning of the message of an error that the model determines:
    the message starts with it, and is it whenever [Error] gives the
    message. *)
Fixpoint Error_head (e : error) : string :=
  match e with
  | errorString s => s
  | wrapError msg err => msg +:+ ": " +:+ Error_head err
  | PathError op path err => op +:+ " " +:+ path +:+ ": " +:+ err
  | valueError pre v post =>
    match fmt_plus_v v with
    | Some s => pre +:+ s +:+ post
    | None => pre
    end
  | quotedError pre s =>
    match fmt_q s with
    | Some q => pre +:+ q
    | None => pre +:+ String "034" EmptyString
    end
  end.

(** [strings.Contains(s, substr)]. *)
Fixpoint Contains (s substr : string) : bool :=
  String.prefix substr s ||
  match s with
  | EmptyString => false
  | String _ s' => Contains s' substr
  end.

(** ** Writers *)

(** The [*os.File] values the package hands to logrus: the two standard
    streams and the files it opens itself. *)
Inductive Writer :=
| os_Stdout
| os_Stderr
| os_File (f : loc).

(** [io.Writer] as stored in [Logger.Out]: one file, or the writer built by
    [io.MultiWriter(writers...)]. *)
Inductive io_Writer :=
| fileWriter (w : Writer)
| multiWriter (writers : list Writer).

(** ** Formatter *)

(** logrus's default keys of the fixed fields of a record (type
    [fieldKey]). *)
Definition log_FieldKeyMsg : string := "msg".
Definition log_FieldKeyLevel : string := "level".
Definition log_FieldKeyTime : string := "time".
Definition log_FieldKeyLogrusError : string := "logrus_error".
Definition log_FieldKeyFunc : string := "func".
Definition log_FieldKeyFile : string := "file".

Abbreviation log_FieldMap := (gmap string string).

(** [log.Formatter]: the default text formatter or
    [&log.JSONFormatter{TimestampFormat, FieldMap}]. *)
Inductive log_Formatter :=
| log_TextFormatter
| log_JSONFormatter (TimestampFormat : string) (FieldMap : log_FieldMap).

(** [FieldMap.resolve]: the configured name of a key, the key itself when
    the map has no entry for it. *)
Definition log_FieldMap_resolve (f : log_FieldMap) (key : string) : string :=
  match f !! key with
  | Some k => k
  | None => key
  end.

(** Modelled from the spec: [log.Logger], with the hook registry as the
    list of registered hooks in registration order. *)
Record log_Logger := {
  Out : io_Writer;
  Hooks : list log_Hook;
  Formatter : log_Formatter;
  ReportCaller : bool;
  Level : log_Level
}.

(** [type ContextLogger struct { *log.Logger; mutex *sync.RWMutex; breaker }]. *)
Record ContextLogger := { cl_Logger : loc; cl_mutex : loc; cl_breaker : chan }.

(* ===================================================================== *)
(** * The store *)
(* ===================================================================== *)

(** An [*os.File] created by [os.OpenFile]. *)
Record File := {
  file_name : string;
  file_flag : Z;
  file_perm : Z;
  file_offset : nat;
  file_closed : bool
}.

Record World := {
  maps : list (gmap string any);     (* Go map objects *)
  loggers : list log_Logger;         (* [*log.Logger] objects *)
  mutexes : list bool;               (* [*sync.RWMutex]: [true] when locked *)
  files : list File;                 (* [*os.File] objects of [os.OpenFile] *)
  fs : gmap string string;           (* file system: path to content *)
  unopenable : gmap string string;   (* paths open(2) refuses, with the errno text *)
  stdout : string;
  stderr : string
}.

Definition set_maps (f : list (gmap string any) → list (gmap string any)) (w : World) : World :=
  {| maps := f (maps w); loggers := loggers w; mutexes := mutexes w;
     files := files w; fs := fs w; unopenable := unopenable w;
     stdout := stdout w; stderr := stderr w |}.

Definition set_loggers (f : list log_Logger → list log_Logger) (w : World) : World :=
  {| maps := maps w; loggers := f (loggers w); mutexes := mutexes w;
     files := files w; fs := fs w; unopenable := unopenable w;
     stdout := stdout w; stderr := stderr w |}.

Definition set_mutexes (f : list bool → list bool) (w : World) : World :=
  {| maps := maps w; loggers := loggers w; mutexes := f (mutexes w);
     files := files w; fs := fs w; unopenable := unopenable w;
     stdout := stdout w; stderr := stderr w |}.

Definition set_files (f : list File → list File) (w : World) : World :=
  {| maps := maps w; loggers := loggers w; mutexes := mutexes w;
     files := f (files w); fs := fs w; unopenable := unopenable w;
     stdout := stdout w; stderr := stderr w |}.

Definition set_fs (f : gmap string string → gmap string string) (w : World) : World :=
  {| maps := maps w; loggers := loggers w; mutexes := mutexes w;
     files := files w; fs := f (fs w); unopenable := unopenable w;
     stdout := stdout w; stderr := stderr w |}.

Definition set_stdout (f : string → string) (w : World) : World :=
  {| maps := maps w; loggers := loggers w; mutexes := mutexes w;
     files := files w; fs := fs w; unopenable := unopenable w;
     stdout := f (stdout w); stderr := stderr w |}.

Definition set_stderr (f : string → string) (w : World) : World :=
  {| maps := maps w; loggers := loggers w; mutexes := mutexes w;
     files := files w; fs := fs w; unopenable := unopenable w;
     stdout := stdout w; stderr := f (stderr w) |}.

(** The store of a process that has allocated nothing yet. *)
Definition empty_world : World :=
  {| maps := []; loggers := []; mutexes := []; files := [];
     fs := ∅; unopenable := ∅; stdout := ""; stderr := "" |}.

(** ** The monad *)

(** A call either returns a value in a new store ([Done]), or crashes
    ([Fault]: a fatal error of the runtime, a call through a nil interface,
    or an address that holds no object, which no pointer handed out by the
    package ever is), or waits forever on a lock that is held
    ([Blocked]). *)
Inductive outcome (A : Type) :=
| Done (a : A) (w : World)
| Fault
| Blocked.
Arguments Done {A} a w.
Arguments Fault {A}.
Arguments Blocked {A}.

Definition M (A : Type) : Type := World → outcome A.

Definition ret {A} (a : A) : M A := λ w, Done a w.

Definition bind {A B} (m : M A) (k : A → M B) : M B :=
  λ w, match m w with
       | Done a w' => k a w'
       | Fault => Fault
       | Blocked => Blocked
       end.

Declare Scope go_scope.
Delimit Scope go_scope with go.
Notation "x <- c ;; k" := (bind c (λ x, k))
  (at level 100, c at next level, right associativity) : go_scope.
Notation "c ;;; k" := (bind c (λ _, k))
  (at level 100, right associativity) : go_scope.
Local Open Scope go_scope.

Definition get {A} (f : World → A) : M A := λ w, Done (f w) w.
Definition modify (f : World → World) : M unit := λ w, Done tt (f w).
Definition fault {A} : M A := λ _, Fault.
Definition block {A} : M A := λ _, Blocked.

(** Dereference and assignment through a pointer into a store. *)
Definition load {A} (store : World → list A) (l : loc) : M A :=
  λ w, match store w !! l with
       | Some a => Done a w
       | None => Fault
       end.

(** [make(...)] / [&T{...}]: a new object at the next free address. *)
Definition new_map (m : gmap string any) : M loc :=
  λ w, Done (length (maps w)) (set_maps (λ h, h ++ [m]) w).

Definition new_logger (l : log_Logger) : M loc :=
  λ w, Done (length (loggers w)) (set_loggers (λ h, h ++ [l]) w).

Definition new_mutex : M loc :=
  λ w, Done (length (mutexes w)) (set_mutexes (λ h, h ++ [false]) w).

Definition update_logger (l : loc) (f : log_Logger → log_Logger) : M unit :=
  L <- load loggers l ;;
  modify (set_loggers (λ h, <[l := f L]> h)).

(* ===================================================================== *)
(** * Library operations the package calls *)
(* ===================================================================== *)

(** ** [sync.RWMutex] *)

(** [Lock]: waits while the lock is held. *)
Definition sync_Lock (m : loc) : M unit :=
  locked <- load mutexes m ;;
  if locked : bool then block
  else modify (set_mutexes (λ h, <[m := true]> h)).

(** [Unlock]: unlocking a lock that is not held is a fatal error of the
    runtime. *)
Definition sync_Unlock (m : loc) : M unit :=
  locked <- load mutexes m ;;
  if locked : bool then modify (set_mutexes (λ h, <[m := false]> h))
  else fault.

(** ** [os] *)

(** The flag bits of [os.OpenFile] (values of linux). *)
Definition os_O_WRONLY : Z := 1.
Definition os_O_RDWR : Z := 2.
Definition os_O_CREATE : Z := 64.
Definition os_O_APPEND : Z := 1024.

(** [flag&bit != 0]. *)
Definition has_flag (flag bit : Z) : bool := negb (Z.eqb (Z.land flag bit) 0).

(** [os.OpenFile(name, flag, perm)]: fails on a path the system refuses and
    on a missing file without [O_CREATE]; otherwise creates the missing file
    (empty) and returns a new open [*os.File]. *)
Definition os_OpenFile (name : string) (flag perm : Z) : M (loc + error) :=
  refused <- get (λ w, unopenable w !! name) ;;
  match refused with
  | Some errno => ret (inr (PathError "open" name errno))
  | None =>
    present <- get (λ w, fs w !! name) ;;
    if bool_decide (present = None) && negb (has_flag flag os_O_CREATE)
    then ret (inr (PathError "open" name "no such file or directory"))
    else
      (if bool_decide (present = None)
       then modify (set_fs (λ m, <[name := ""]> m))
       else ret tt) ;;;
      f <- get (λ w, length (files w)) ;;
      modify (set_files (λ h, h ++ [{| file_name := name; file_flag := flag;
                                       file_perm := perm; file_offset := 0;
                                       file_closed := false |}])) ;;;
      ret (inl f)
  end.

(** [Close] of [*os.File]. *)
Definition os_File_Close (f : loc) : M (option error) :=
  F <- load files f ;;
  if file_closed F
  then ret (Some (PathError "close" (file_name F) "file already closed"))
  else
    modify (set_files (λ h, <[f := {| file_name := file_name F; file_flag := file_flag F;
                                      file_perm := file_perm F;
                                      file_offset := file_offset F;
                                      file_closed := true |}]> h)) ;;;
    ret None.

(** The content of a file after [p] is written at offset [off]; a gap
    between the end of the file and [off] reads as zero bytes. *)
Definition write_at (content : string) (off : nat) (p : string) : string :=
  let n := String.length content in
  let m := (off + String.length p)%nat in
  substring 0 off content
  +:+ string_of_list_ascii (repeat Ascii.zero (off - n))
  +:+ p
  +:+ substring m (n - m) content.

(** [Write] of [*os.File]: a closed file and a file not opened for writing
    give an error; with [O_APPEND] the bytes go to the end of the file,
    otherwise to the offset of the descriptor, which moves past them. *)
Definition os_File_Write (f : loc) (p : string) : M (option error) :=
  F <- load files f ;;
  if file_closed F
  then ret (Some (PathError "write" (file_name F) "file already closed"))
  else if negb (has_flag (file_flag F) (Z.lor os_O_WRONLY os_O_RDWR))
  then ret (Some (PathError "write" (file_name F) "bad file descriptor"))
  else
    content <- get (λ w, default "" (fs w !! file_name F)) ;;
    let content' :=
      if has_flag (file_flag F) os_O_APPEND then content +:+ p
      else write_at content (file_offset F) p in
    let off' :=
      if has_flag (file_flag F) os_O_APPEND then String.length content'
      else (file_offset F + String.length p)%nat in
    modify (set_fs (λ m, <[file_name F := content']> m)) ;;;
    modify (set_files (λ h, <[f := {| file_name := file_name F; file_flag := file_flag F;
                                      file_perm := file_perm F; file_offset := off';
                                      file_closed := false |}]> h)) ;;;
    ret None.

(** ** [io] *)

Definition Writer_Write (w : Writer) (p : string) : M (option error) :=
  match w with
  | os_Stdout => modify (set_stdout (λ s, s +:+ p)) ;;; ret None
  | os_Stderr => modify (set_stderr (λ s, s +:+ p)) ;;; ret None
  | os_File f => os_File_Write f p
  end.

(** [Write] of [*multiWriter]: every writer in turn, stopping at the first
    error. *)
Fixpoint multiWriter_Write (writers : list Writer) (p : string) : M (option error) :=
  match writers with
  | [] => ret None
  | w :: ws =>
    err <- Writer_Write w p ;;
    match err with
    | Some e => ret (Some e)
    | None => multiWriter_Write ws p
    end
  end.

Definition io_Writer_Write (o : io_Writer) (p : string) : M (option error) :=
  match o with
  | fileWriter w => Writer_Write w p
  | multiWriter writers => multiWriter_Write writers p
  end.

(** ** logrus *)

(** Modelled from the spec: [log.New()], the logger with the library's
    defaults (standard error, text formatter, no hook, level info). *)
Definition log_New : M loc :=
  new_logger {| Out := fileWriter os_Stderr; Hooks := [];
                Formatter := log_TextFormatter; ReportCaller := false;
                Level := log_InfoLevel |}.

Definition log_Logger_SetFormatter (logger : loc) (f : log_Formatter) : M unit :=
  update_logger logger (λ L, {| Out := Out L; Hooks := Hooks L; Formatter := f;
                                ReportCaller := ReportCaller L; Level := Level L |}).

(** The assignment [logger.Out = o]. *)
Definition log_Logger_SetOut (logger : loc) (o : io_Writer) : M unit :=
  update_logger logger (λ L, {| Out := o; Hooks := Hooks L; Formatter := Formatter L;
                                ReportCaller := ReportCaller L; Level := Level L |}).

Definition log_Logger_SetReportCaller (logger : loc) (b : bool) : M unit :=
  update_logger logger (λ L, {| Out := Out L; Hooks := Hooks L; Formatter := Formatter L;
                                ReportCaller := b; Level := Level L |}).

Definition log_Logger_SetLevel (logger : loc) (lvl : log_Level) : M unit :=
  update_logger logger (λ L, {| Out := Out L; Hooks := Hooks L; Formatter := Formatter L;
                                ReportCaller := ReportCaller L; Level := lvl |}).

(** Modelled from the spec: [Logger.AddHook] registers the hook after the
    ones registered before. *)
Definition log_Logger_AddHook (logger : loc) (hook : log_Hook) : M unit :=
  update_logger logger (λ L, {| Out := Out L; Hooks := Hooks L ++ [hook];
                                Formatter := Formatter L;
                                ReportCaller := ReportCaller L; Level := Level L |}).

(** [unicode.ToLower] on a character below U+0080. *)
Definition ascii_ToLower (c : ascii) : ascii :=
  let n := nat_of_ascii c in
  if ((65 <=? n) && (n <=? 90))%nat then ascii_of_nat (n + 32) else c.

(** [strings.ToLower(s)], on the bytes of [s], when every character of the
    result is below U+0080, and [None] when the result has a character
    from U+0080 on.  The characters whose lower case is below U+0080 are
    the characters below U+0080 themselves, U+0130 (bytes C4 B0, lower
    case [i]) and U+212A (bytes E2 84 AA, lower case [k]); every other
    character from U+0080 on, and every byte that is not part of a
    well-formed character, comes out as a character from U+0080 on. *)
Fixpoint strings_ToLower (s : string) : option string :=
  match s with
  | EmptyString => Some EmptyString
  | String c rest =>
    if Nat.ltb (nat_of_ascii c) 128 then
      String (ascii_ToLower c) <$> strings_ToLower rest
    else
      match rest with
      | String c1 rest1 =>
        if Nat.eqb (nat_of_ascii c) 196 && Nat.eqb (nat_of_ascii c1) 176 then
          String "i" <$> strings_ToLower rest1
        else
          match rest1 with
          | String c2 rest2 =>
            if Nat.eqb (nat_of_ascii c) 226 && Nat.eqb (nat_of_ascii c1) 132
               && Nat.eqb (nat_of_ascii c2) 170
            then String "k" <$> strings_ToLower rest2
            else None
          | EmptyString => None
          end
      | EmptyString => None
      end
  end.

(** The cases of the switch of [log.ParseLevel]. *)
Definition level_of_name (l : string) : option log_Level :=
  if String.eqb l "panic" then Some log_PanicLevel
  else if String.eqb l "fatal" then Some log_FatalLevel
  else if String.eqb l "error" then Some log_ErrorLevel
  else if String.eqb l "warn" || String.eqb l "warning" then Some log_WarnLevel
  else if String.eqb l "info" then Some log_InfoLevel
  else if String.eqb l "debug" then Some log_DebugLevel
  else if String.eqb l "trace" then Some log_TraceLevel
  else None.

(** Modelled from the spec: [log.ParseLevel], the parser of the library:
    a switch on [strings.ToLower(lvl)] over the level names ([warn] and
    [warning] name the same level); a lower-cased string with a character
    from U+0080 on is none of the names.  The error quotes the string as
    it was given. *)
Definition log_ParseLevel (lvl : string) : log_Level + error :=
  match strings_ToLower lvl ≫= level_of_name with
  | Some l => inl l
  | None => inr (quotedError "not a valid logrus Level: " lvl)
  end.

(** Go's [for k, v := range src { dst[k] = v }]. *)
Definition copy_into (src dst : gmap string any) : gmap string any :=
  map_fold (λ k v data, <[k := v]> data) dst src.

(** Modelled from the spec: [Logger.newEntry], a new entry of the logger
    with an empty map of its own. *)
Definition log_Logger_newEntry (logger : loc) : M log_Entry :=
  d <- new_map ∅ ;;
  ret {| Logger := logger; Data := d |}.

(** Modelled from the spec: [Entry.WithFields] makes a new map, copies the
    entry's fields into it, then the new fields over them, and returns a
    new entry holding that map. *)
Definition log_Entry_WithFields (e : log_Entry) (fields : log_Fields) : M log_Entry :=
  old <- load maps (Data e) ;;
  d <- new_map (copy_into fields (copy_into old ∅)) ;;
  ret {| Logger := Logger e; Data := d |}.

Definition log_Logger_WithFields (logger : loc) (fields : log_Fields) : M log_Entry :=
  e <- log_Logger_newEntry logger ;;
  log_Entry_WithFields e fields.

Definition log_Logger_IsLevelEnabled (L : log_Logger) (level : log_Level) : bool :=
  (log_Level_num level <=? log_Level_num (Level L))%Z.

(** Modelled from the spec: an emission at [level] whose formatted record
    is [line]: when the level is enabled the record is written to
    [logger.Out]; a failed write is reported on standard error. *)
Definition log_Logger_emit (logger : loc) (level : log_Level) (line : string) : M unit :=
  L <- load loggers logger ;;
  if log_Logger_IsLevelEnabled L level then
    err <- io_Writer_Write (Out L) line ;;
    match err with
    | Some e =>
      modify (set_stderr (λ s, s +:+ "Failed to write to log, "
                                 +:+ default "" (Error e) +:+ String "010" EmptyString))
    | None => ret tt
    end
  else ret tt.

(** ** [context] *)

(** Keys of context values: the package's own key [ctxValue] (the address
    of an unexported variable, so no other package can present it) and the
    keys of others. *)
Inductive context_key :=
| ctxValue
| other_key (n : nat).

#[global] Instance context_key_eq_dec : EqDecision context_key.
Proof. solve_decision. Defined.

(** [context.Context]: the empty context and [context.WithValue]. *)
Inductive Context :=
| Background
| WithValue (parent : Context) (key : context_key) (val : any).

(** [ctx.Value(key)]: the value of the innermost binding of [key], nil when
    there is none. *)
Fixpoint Context_Value (ctx : Context) (key : context_key) : any :=
  match ctx with
  | Background => nil_any
  | WithValue parent k val =>
    if decide (k = key) then val else Context_Value parent key
  end.

(** ** [time]: layouts *)

(** The elements of a layout that the timestamp pattern of the package
    uses: the zero-padded day, month, hour (24h), minute and second, the
    four-digit year, and literal characters. *)
Inductive time_chunk :=
| stdZeroDay | stdZeroMonth | stdLongYear
| stdHour | stdZeroMinute | stdZeroSecond
| stdLiteral (c : ascii).

Definition is_digit (c : ascii) : bool :=
  let n := nat_of_ascii c in ((48 <=? n) && (n <=? 57))%nat.

(** The characters at which the layout scanner of [time] recognises an
    element that is not among [time_chunk]. *)
Definition other_std_start (c : ascii) : bool :=
  existsb (Ascii.eqb c)
    ["J"; "M"; "_"; "3"; "4"; "5"; "P"; "p"; "-"; "Z"; ","]%char.

(** Whether a digit follows the run of [ch] at the head of [s] (the test
    that tells a fraction of a second, [.000], from a separator). *)
Fixpoint digit_after_run (ch : ascii) (s : string) : bool :=
  match s with
  | EmptyString => false
  | String c s' => if Ascii.eqb c ch then digit_after_run ch s' else is_digit c
  end.

(** Modelled from the spec: the scanner of [time] layouts
    ([nextStdChunk]), on layouts made of the elements above: [02] day,
    [01] month, [2006] year, [15] hour, [04] minute, [05] second; [None]
    where the layout has, or may have, another element of the reference
    time. *)
Fixpoint time_layout (layout : string) : option (list time_chunk) :=
  match layout with
  | EmptyString => Some []
  | String "0" (String "2" rest) => cons stdZeroDay <$> time_layout rest
  | String "0" (String "1" rest) => cons stdZeroMonth <$> time_layout rest
  | String "0" (String "4" rest) => cons stdZeroMinute <$> time_layout rest
  | String "0" (String "5" rest) => cons stdZeroSecond <$> time_layout rest
  | String "0" (String c _ as tl) =>
    if existsb (Ascii.eqb c) ["0"; "3"; "6"]%char then None
    else cons (stdLiteral "0") <$> time_layout tl
  | String "1" (String "5" rest) => cons stdHour <$> time_layout rest
  | String "1" _ => None
  | String "2" (String "0" (String "0" (String "6" rest))) =>
    cons stdLongYear <$> time_layout rest
  | String "2" _ => None
  | String "." (String c rest as tl) =>
    if existsb (Ascii.eqb c) ["0"; "9"]%char && negb (digit_after_run c rest)
    then None
    else cons (stdLiteral ".") <$> time_layout tl
  | String c rest =>
    if other_std_start c then None
    else cons (stdLiteral c) <$> time_layout rest
  end.

(** A calendar time, field by field. *)
Record Time := {
  t_year : nat; t_month : nat; t_day : nat;
  t_hour : nat; t_minute : nat; t_second : nat
}.

(** [appendInt(b, x, width)]: decimal, zero-padded to [width]. *)
Definition appendInt (x width : nat) : string :=
  let d := pretty x in
  string_of_list_ascii (repeat "0"%char (width - String.length d)) +:+ d.

Definition time_chunk_Format (t : Time) (c : time_chunk) : string :=
  match c with
  | stdZeroDay => appendInt (t_day t) 2
  | stdZeroMonth => appendInt (t_month t) 2
  | stdLongYear => appendInt (t_year t) 4
  | stdHour => appendInt (t_hour t) 2
  | stdZeroMinute => appendInt (t_minute t) 2
  | stdZeroSecond => appendInt (t_second t) 2
  | stdLiteral c => String c EmptyString
  end.

(** [t.Format(layout)]. *)
Definition time_Format (t : Time) (layout : string) : option string :=
  chunks ← time_layout layout;
  Some (foldr (λ c acc, time_chunk_Format t c +:+ acc) "" chunks).

(* ===================================================================== *)
(** * Package logrus of the repository: [entry] and [ContextLogger] *)
(* ===================================================================== *)

(** The level names the package exports. *)
Definition DebugLevel : string := "debug".
Definition InfoLevel : string := "info".
Definition WarnLevel : string := "warning".
Definition ErrorLevel : string := "error".
Definition FatalLevel : string := "fatal".
Definition PanicLevel : string := "panic".

(** [p == nil] on a pointer or interface value. *)
Definition is_nil {A} (p : option A) : bool :=
  match p with
  | None => true
  | Some _ => false
  end.

(** The type assertion [v.( *entry )] in its two-result form. *)
Definition assert_entry (v : any) : option entry * bool :=
  match v with
  | entry_ptr p => (p, true)
  | _ => (None, false)
  end.

(** The type assertion [v.(log.Hook)] in its two-result form: it succeeds
    exactly on the values whose dynamic type has the methods of
    [log.Hook]; the interface value it yields is then not nil. *)
Definition assert_Hook (v : any) : option log_Hook * bool :=
  match v with
  | hook_any h => (Some h, true)
  | _ => (None, false)
  end.

(** ** Methods of [*entry] *)

Definition entry_WithValues (e : entry) (v : Values) : M entry :=
  le <- log_Entry_WithFields (e_Entry e) v ;;
  ret {| e_Entry := le; e_breaker := e_breaker e |}.

(** [GetValues] returns the map object [e.Data] itself. *)
Definition entry_GetValues (e : entry) : M loc :=
  ret (Data (e_Entry e)).

(** [FromContext]: a nil interface unless the context holds a non-nil
    [*entry] under [ctxValue]. *)
Definition entry_FromContext (e : entry) (ctx : Context) : option entry :=
  let '(logger, _) := assert_entry (Context_Value ctx ctxValue) in
  if is_nil logger then None else logger.

Definition entry_NewContext (e : entry) (ctx : Context) : M Context :=
  ret (WithValue ctx ctxValue (entry_ptr (Some e))).

(** ** Methods of [*ContextLogger] *)

Definition ContextLogger_WithValues (cl : ContextLogger) (v : Values) : M entry :=
  le <- log_Logger_WithFields (cl_Logger cl) v ;;
  ret {| e_Entry := le; e_breaker := cl_breaker cl |}.

Definition ContextLogger_FromContext (cl : ContextLogger) (ctx : Context) : option entry :=
  let '(e, _) := assert_entry (Context_Value ctx ctxValue) in
  if is_nil e then None else e.

(** [NewContext] stores the [*log.Entry] that [cl.WithFields] returns. *)
Definition ContextLogger_NewContext (cl : ContextLogger) (ctx : Context) : M Context :=
  le <- log_Logger_WithFields (cl_Logger cl) ∅ ;;
  ret (WithValue ctx ctxValue (log_Entry_ptr (Some le))).

(** [GetValues] returns a new empty map. *)
Definition ContextLogger_GetValues (cl : ContextLogger) : M loc :=
  new_map ∅.

(** The loop of [AddHooks].  Past the guard [!ok || hook == nil] the hook
    is not nil; registering a nil hook would crash in the library. *)
Fixpoint AddHooks_range (cl : ContextLogger) (hooks : list any) : M (option error) :=
  match hooks with
  | [] => ret None
  | v :: rest =>
    let '(hook, ok) := assert_Hook v in
    if negb ok || is_nil hook then
      ret (Some (valueError "value '" v "' is does not match the interface Hook"))
    else
      match hook with
      | Some h => log_Logger_AddHook (cl_Logger cl) h
      | None => fault
      end ;;;
      AddHooks_range cl rest
  end.

(** [AddHooks]: the loop between [Lock] and the deferred [Unlock]. *)
Definition ContextLogger_AddHooks (cl : ContextLogger) (hooks : list any) : M (option error) :=
  sync_Lock (cl_mutex cl) ;;;
  err <- AddHooks_range cl hooks ;;
  sync_Unlock (cl_mutex cl) ;;;
  ret err.

(** An emission through the logger ([Debug], [Info], ...: the methods of
    the embedded [*log.Logger]), [line] being the formatted record. *)
Definition ContextLogger_emit (cl : ContextLogger) (level : log_Level) (line : string) : M unit :=
  log_Logger_emit (cl_Logger cl) level line.

(** ** The constructor *)

(** The field names of the target log schema. *)
Definition New_FieldMap : log_FieldMap :=
  list_to_map
    [ (log_FieldKeyFile, "file");
      (log_FieldKeyFunc, "func");
      (log_FieldKeyLogrusError, "logger_error");
      (log_FieldKeyTime, "timestamp");
      (log_FieldKeyLevel, "level");
      (log_FieldKeyMsg, "message") ].

(** [os.O_APPEND|os.O_WRONLY|os.O_CREATE] and the permission [0600]. *)
Definition New_flag : Z := Z.lor (Z.lor os_O_APPEND os_O_WRONLY) os_O_CREATE.
Definition New_perm : Z := 6 * 64.

(** The loop over [outputs]: [inr] is the early return with the error. *)
Fixpoint New_range (outputs : list string) (writers : list Writer) : M (list Writer + error) :=
  match outputs with
  | [] => ret (inl writers)
  | v :: rest =>
    r <- os_OpenFile v New_flag New_perm ;;
    match r with
    | inr err => ret (inr (wrapError ("error open file path '" +:+ v +:+ "'") err))
    | inl file => New_range rest (writers ++ [os_File file])
    end
  end.

(** [New(breaker, level, outputs...)]: the pair of results of the Go
    function, [None] for nil. *)
Definition New (breaker : chan) (level : string) (outputs : list string)
  : M (option ContextLogger * option error) :=
  match breaker with
  | None => ret (None, Some (errorString "breaker can't be nil"))
  | Some _ =>
    logger <- log_New ;;
    log_Logger_SetFormatter logger
      (log_JSONFormatter "02.01.2006 15:04:05" New_FieldMap) ;;;
    r <- New_range outputs [os_Stdout] ;;
    match r with
    | inr err => ret (None, Some err)
    | inl writers =>
      log_Logger_SetOut logger (multiWriter writers) ;;;
      log_Logger_SetReportCaller logger true ;;;
      match log_ParseLevel level with
      | inr err =>
        ret (None, Some (wrapError ("error parse level value '" +:+ level +:+ "'") err))
      | inl lvl =>
        log_Logger_SetLevel logger lvl ;;;
        mutex <- new_mutex ;;
        ret (Some {| cl_Logger := logger; cl_mutex := mutex; cl_breaker := breaker |},
             None)
      end
    end
  end.

(* ===================================================================== *)
(** * Vocabulary of the statements *)
(* ===================================================================== *)

(** The descriptor [New] creates for the output path [p]. *)
Definition New_File (p : string) : File :=
  {| file_name := p; file_flag := New_flag; file_perm := New_perm;
     file_offset := 0; file_closed := false |}.

(** The store after [os.OpenFile] has opened [p] for [New]. *)
Definition opened (w : World) (p : string) : World :=
  set_files (λ h, h ++ [New_File p])
    (if bool_decide (fs w !! p = None) then set_fs (λ m, <[p := ""]> m) w else w).

(** The first output path the system refuses, with the errno text. *)
Fixpoint first_refused (w : World) (outputs : list string) : option (string * string) :=
  match outputs with
  | [] => None
  | p :: rest =>
    match unopenable w !! p with
    | Some errno => Some (p, errno)
    | None => first_refused w rest
    end
  end.

(** The output paths before the first refused one: the files a call of
    [New] opens. *)
Fixpoint opened_prefix (w : World) (outputs : list string) : list string :=
  match outputs with
  | [] => []
  | p :: rest =>
    match unopenable w !! p with
    | Some _ => []
    | None => p :: opened_prefix w rest
    end
  end.

(** A context that was built without [NewContext]: no binding in it has
    the key [ctxValue], which only [NewContext] can present. *)
Inductive never_NewContext : Context → Prop :=
| never_Background : never_NewContext Background
| never_WithValue parent n val :
    never_NewContext parent →
    never_NewContext (WithValue parent (other_key n) val).

(** The hooks of an argument list of [AddHooks] that come before its first
    value not satisfying [log.Hook]. *)
Fixpoint conforming_prefix (hooks : list any) : list log_Hook :=
  match hooks with
  | hook_any h :: rest => h :: conforming_prefix rest
  | _ => []
  end.

(** The first value of the list that does not satisfy [log.Hook]. *)
Fixpoint first_nonconforming (hooks : list any) : option any :=
  match hooks with
  | [] => None
  | hook_any _ :: rest => first_nonconforming rest
  | v :: _ => Some v
  end.

(** [e.WithValues(v1).WithValues(v2)...]. *)
Fixpoint entry_WithValues_chain (e : entry) (vs : list Values) : M entry :=
  match vs with
  | [] => ret e
  | v :: rest => e' <- entry_WithValues e v ;; entry_WithValues_chain e' rest
  end.

(** The field mapping accumulated by enriching with [vs] in turn, starting
    from [d]: later values win on a shared key. *)
Definition accumulated (d : gmap string any) (vs : list Values) : gmap string any :=
  foldl (λ acc v, v ∪ acc) d vs.

(** The field mapping [e.GetValues()] yields in the store [w]. *)
Definition fields_of (e : entry) (w : World) : option (gmap string any) :=
  match entry_GetValues e w with
  | Done r w' => maps w' !! r
  | _ => None
  end.

(** The level names the package exports as its constants. *)
Definition package_level_names : list string :=
  [DebugLevel; InfoLevel; WarnLevel; ErrorLevel; FatalLevel; PanicLevel].

(** The level names of the switch of the parser. *)
Definition parser_level_names : list string :=
  ["panic"; "fatal"; "error"; "warn"; "warning"; "info"; "debug"; "trace"].

(** [level], lower-cased as [strings.ToLower] does, is one of [names]. *)
Definition in_names (names : list string) (level : string) : bool :=
  match strings_ToLower level with
  | Some l => bool_decide (l ∈ names)
  | None => false
  end.

(** [msg] mentions [s]: [s] occurs in it. *)
Definition mentions (msg s : string) : Prop :=
  ∃ pre post, msg = pre +:+ s +:+ post.

(** A logger with hooks [hs] replaced. *)
Definition with_Hooks (L : log_Logger) (hs : list log_Hook) : log_Logger :=
  {| Out := Out L; Hooks := hs; Formatter := Formatter L;
     ReportCaller := ReportCaller L; Level := Level L |}.

(** ** Concrete inputs of the examples *)

(** An entry without fields, in a store that holds its (empty) map. *)
Definition example_entry : entry :=
  {| e_Entry := {| Logger := 0%nat; Data := 0%nat |}; e_breaker := Some 0%nat |}.
Definition example_store : World := set_maps (λ _, [∅]) empty_world.

(** The values [{"a": 1}] and [{"b": 2}]. *)
Definition values_a1 : Values := {[ "a" := int_any 1 ]}.
Definition values_b2 : Values := {[ "b" := int_any 2 ]}.

(** The formatter [New] configures and the logger it leaves behind: [n]
    files were open before the call, [k] output paths were given. *)
Definition New_Formatter : log_Formatter :=
  log_JSONFormatter "02.01.2006 15:04:05" New_FieldMap.

Definition New_writers (n k : nat) : list Writer :=
  os_Stdout :: map os_File (seq n k).

Definition New_Logger (n k : nat) (lvl : log_Level) : log_Logger :=
  {| Out := multiWriter (New_writers n k); Hooks := [];
     Formatter := New_Formatter; ReportCaller := true; Level := lvl |}.

(** The logger handle and the store after [New(ch, "info")] in the empty
    store, [ch] being channel number 0. *)
Definition example_logger : ContextLogger :=
  {| cl_Logger := 0%nat; cl_mutex := 0%nat; cl_breaker := Some 0%nat |}.
Definition example_logger_store : World :=
  set_mutexes (λ _, [false])
    (set_loggers (λ _, [New_Logger 0 0 log_InfoLevel]) empty_world).

(** A store whose system refuses to open [/root/b.log]. *)
Definition refusing_store : World :=
  {| maps := []; loggers := []; mutexes := []; files := [];
     fs := ∅; unopenable := {[ "/root/b.log" := "permission denied" ]};
     stdout := ""; stderr := "" |}.

(** The store in which a computation ends, the starting store when it does
    not return. *)
Definition store_after {A} (m : M A) (w : World) : World :=
  match m w with
  | Done _ w' => w'
  | _ => w
  end.

(** The error of [AddHooks] about the value [v]. *)
Definition AddHooks_error (v : any) : error :=
  valueError "value '" v "' is does not match the interface Hook".

(** Two hooks, and an argument list whose second value does not satisfy
    [log.Hook]. *)
Definition hook1 : log_Hook := {| hook_id := 1; Levels := [log_ErrorLevel] |}.
Definition hook2 : log_Hook := {| hook_id := 2; Levels := [log_InfoLevel] |}.
Definition mixed_hooks : list any := [hook_any hook1; string_any "not a hook"; hook_any hook2].

(** [content] ends with [line]. *)
Definition ends_with (content line : string) : Prop :=
  ∃ pre, content = pre +:+ line.

(** The file at address [j] is open and was opened the way [New] opens its
    outputs. *)
Definition open_for_append (w : World) (j : loc) : Prop :=
  ∃ F, files w !! j = Some F ∧ file_closed F = false ∧ file_flag F = New_flag.

(* ===================================================================== *)
(** * Vocabulary of the further properties *)
(* ===================================================================== *)

(** Bindings that other packages put on top of a context, each under a
    key of its own (as [trace.StartSpan] does in [GracefulFatal]). *)
Definition with_others (ctx : Context) (others : list (nat * any)) : Context :=
  foldl (λ c b, WithValue c (other_key b.1) b.2) ctx others.

(** Go's [m[k] = v] by a caller on the map object at [r]. *)
Definition map_assign (r : loc) (k : string) (v : any) : M unit :=
  m <- load maps r ;;
  modify (set_maps (λ h, <[r := <[k := v]> m]> h)).

(** An emission through an entry ([e.Info(...)] and the like, the methods
    of the embedded [*log.Entry]): it goes to the output of the entry's
    logger; [line] is the formatted record. *)
Definition entry_emit (e : entry) (level : log_Level) (line : string) : M unit :=
  log_Logger_emit (Logger (e_Entry e)) level line.

(** [AddHooks(hs1...)] followed, when it returns without error, by
    [AddHooks(hooks2...)]. *)
Definition AddHooks_twice (cl : ContextLogger) (hooks1 hooks2 : list any) : M (option error) :=
  err <- ContextLogger_AddHooks cl hooks1 ;;
  match err with
  | Some e => ret (Some e)
  | None => ContextLogger_AddHooks cl hooks2
  end.

(** The file system after the paths [ps] have been opened with
    [O_CREATE]: a missing file is created empty, an existing one is left
    as it is. *)
Definition created (m : gmap string string) (ps : list string) : gmap string string :=
  foldl (λ m p, if bool_decide (m !! p = None) then <[p := ""]> m else m) m ps.

(** The open file at address [j] is a file of [New] for the path [p]. *)
Definition file_of_New (w : World) (j : loc) (p : string) : Prop :=
  ∃ F, files w !! j = Some F ∧ file_name F = p ∧
       file_closed F = false ∧ file_flag F = New_flag.

(** The logger [cl] is wired as [New] leaves it: it writes to standard
    output and to the files at the addresses from [n] on, which are open
    files of [New] for the paths [outs], and its level is [lvl]. *)
Definition wired (w : World) (cl : ContextLogger) (n : nat) (outs : list string)
    (lvl : log_Level) : Prop :=
  (∃ L, loggers w !! cl_Logger cl = Some L ∧
        Out L = multiWriter (New_writers n (length outs)) ∧ Level L = lvl) ∧
  ∀ i p, outs !! i = Some p → file_of_New w (n + i) p.

(** The levels whose emission methods return to the caller: [Fatal] ends
    the process and [Panic] panics after the record is written. *)
Definition returning_level (lv : log_Level) : Prop :=
  (log_Level_num log_FatalLevel < log_Level_num lv)%Z.

(** A call of a method of the package that works on the store, with its
    receiver and arguments ([FromContext] only reads its argument). *)
Inductive call :=
| call_New (breaker : chan) (level : string) (outputs : list string)
| call_cl_WithValues (cl : ContextLogger) (v : Values)
| call_cl_GetValues (cl : ContextLogger)
| call_cl_NewContext (cl : ContextLogger) (ctx : Context)
| call_cl_AddHooks (cl : ContextLogger) (hooks : list any)
| call_cl_emit (cl : ContextLogger) (level : log_Level) (line : string)
| call_e_WithValues (e : entry) (v : Values)
| call_e_GetValues (e : entry)
| call_e_NewContext (e : entry) (ctx : Context)
| call_e_emit (e : entry) (level : log_Level) (line : string).

(** The store a computation returns in, if it returns. *)
Definition store_of {A} (o : outcome A) : option World :=
  match o with
  | Done _ w => Some w
  | _ => None
  end.

(** The store after a call, when the call returns to its caller. *)
Definition run (c : call) (w : World) : option World :=
  match c with
  | call_New b level outs => store_of (New b level outs w)
  | call_cl_WithValues cl v => store_of (ContextLogger_WithValues cl v w)
  | call_cl_GetValues cl => store_of (ContextLogger_GetValues cl w)
  | call_cl_NewContext cl ctx => store_of (ContextLogger_NewContext cl ctx w)
  | call_cl_AddHooks cl hooks => store_of (ContextLogger_AddHooks cl hooks w)
  | call_cl_emit cl lv line =>
    if bool_decide (returning_level lv) then store_of (ContextLogger_emit cl lv line w)
    else None
  | call_e_WithValues e v => store_of (entry_WithValues e v w)
  | call_e_GetValues e => store_of (entry_GetValues e w)
  | call_e_NewContext e ctx => store_of (entry_NewContext e ctx w)
  | call_e_emit e lv line =>
    if bool_decide (returning_level lv) then store_of (entry_emit e lv line w)
    else None
  end.

(** The store after a sequence of calls that all return. *)
Fixpoint run_all (cs : list call) (w : World) : option World :=
  match cs with
  | [] => Some w
  | c :: rest =>
    match run c w with
    | Some w' => run_all rest w'
    | None => None
    end
  end.

(** What every call of the package leaves alone: an object of the store
    [w] is still there in [w'], a file with its name, flags, permission
    and open or closed state, a map with its content, a logger with its
    configuration and its hooks at the head of its hook list, a lock in
    its state; and the system refuses the same paths. *)
Definition frame (w w' : World) : Prop :=
  (∀ j F, files w !! j = Some F →
          ∃ F', files w' !! j = Some F' ∧ file_name F' = file_name F ∧
                file_flag F' = file_flag F ∧ file_perm F' = file_perm F ∧
                file_closed F' = file_closed F) ∧
  (∀ l m, maps w !! l = Some m → maps w' !! l = Some m) ∧
  (∀ l L, loggers w !! l = Some L →
          ∃ hs, loggers w' !! l = Some (with_Hooks L (Hooks L ++ hs))) ∧
  (∀ m b, mutexes w !! m = Some b → mutexes w' !! m = Some b) ∧
  unopenable w' = unopenable w.

(** A session: calls on the logger of [New(ch, "info", "a.log")], on an
    entry derived from it, and a second construction. *)
Definition example_session_start : World :=
  store_after (New (Some 0%nat) "info" ["a.log"]) empty_world.

Definition example_derived_entry : entry :=
  {| e_Entry := {| Logger := 0%nat; Data := 1%nat |}; e_breaker := Some 0%nat |}.

Definition example_session : list call :=
  [ call_cl_AddHooks example_logger mixed_hooks;
    call_cl_WithValues example_logger values_a1;
    call_e_WithValues example_derived_entry values_b2;
    call_e_emit example_derived_entry log_InfoLevel "record";
    call_cl_GetValues example_logger;
    call_cl_NewContext example_logger Background;
    call_New (Some 1%nat) "debug" ["a.log"; "b.log"];
    call_cl_emit example_logger log_ErrorLevel "failed" ].

Definition example_session_end : World :=
  default example_session_start (run_all example_session example_session_start).

(* ===================================================================== *)
(** * Properties of the library operations *)
(* ===================================================================== *)

Section store_lemmas.

Lemma copy_into_union (src dst : gmap string any) :
  copy_into src dst = src ∪ dst.
Proof.
  unfold copy_into.
  apply (map_fold_weak_ind (λ r m, r = m ∪ dst)).
  - by rewrite (left_id_L ∅ (∪)).
  - intros k v m r _ ->. by rewrite insert_union_l.
Qed.

Lemma lookup_snoc_new {A} (h : list A) (x : A) :
  (h ++ [x]) !! length h = Some x.
Proof. by rewrite lookup_app_r, Nat.sub_diag. Qed.

Lemma lookup_snoc_old {A} (h : list A) (x y : A) (l : nat) :
  h !! l = Some y → (h ++ [x]) !! l = Some y.
Proof. intros H. rewrite lookup_app_l; [done | by eapply lookup_lt_Some]. Qed.

Lemma lookup_snoc2_new {A} (h : list A) (x y : A) :
  ((h ++ [x]) ++ [y]) !! S (length h) = Some y.
Proof.
  replace (S (length h)) with (length (h ++ [x])).
  - apply lookup_snoc_new.
  - rewrite length_app. simpl. lia.
Qed.

Lemma insert_snoc_new {A} (h : list A) (x y : A) :
  <[length h := y]> (h ++ [x]) = h ++ [y].
Proof. by rewrite insert_app_r_alt, Nat.sub_diag. Qed.

(** [Entry.WithFields] on an entry whose map holds [d]: the new entry
    owns a new map holding the union, nothing else changes. *)
Lemma log_Entry_WithFields_Done (e : log_Entry) (fields d : gmap string any) (w : World) :
  maps w !! Data e = Some d →
  log_Entry_WithFields e fields w
  = Done {| Logger := Logger e; Data := length (maps w) |}
         (set_maps (λ h, h ++ [fields ∪ d]) w).
Proof.
  intros H. unfold log_Entry_WithFields, bind, load, new_map, ret.
  rewrite H. rewrite !copy_into_union. by rewrite (right_id_L ∅ (∪)).
Qed.

Lemma log_Logger_WithFields_Done (logger : loc) (fields : gmap string any) (w : World) :
  log_Logger_WithFields logger fields w
  = Done {| Logger := logger; Data := S (length (maps w)) |}
         (set_maps (λ h, (h ++ [∅]) ++ [fields]) w).
Proof.
  unfold log_Logger_WithFields, log_Logger_newEntry, bind, new_map, ret.
  rewrite (log_Entry_WithFields_Done _ _ ∅); simpl.
  - rewrite length_app, Nat.add_comm. simpl.
    by rewrite (right_id_L ∅ (∪)).
  - apply lookup_snoc_new.
Qed.

End store_lemmas.

(* ===================================================================== *)
(** * Field enrichment: [WithValues] and [GetValues] *)
(* ===================================================================== *)

Lemma entry_WithValues_Done (e : entry) (v d : gmap string any) (w : World) :
  maps w !! Data (e_Entry e) = Some d →
  entry_WithValues e v w
  = Done {| e_Entry := {| Logger := Logger (e_Entry e); Data := length (maps w) |};
            e_breaker := e_breaker e |}
         (set_maps (λ h, h ++ [v ∪ d]) w).
Proof.
  intros H. unfold entry_WithValues, bind, ret.
  by rewrite (log_Entry_WithFields_Done _ _ d).
Qed.

Lemma ContextLogger_WithValues_Done (cl : ContextLogger) (v : gmap string any) (w : World) :
  ContextLogger_WithValues cl v w
  = Done {| e_Entry := {| Logger := cl_Logger cl; Data := S (length (maps w)) |};
            e_breaker := cl_breaker cl |}
         (set_maps (λ h, (h ++ [∅]) ++ [v]) w).
Proof.
  unfold ContextLogger_WithValues, bind, ret.
  by rewrite log_Logger_WithFields_Done.
Qed.

(** Entries are handed out with a map of their own in the store, and a
    map object, once in the store, stays: the hypothesis of the lemmas on
    entries below holds of every entry the package returns. *)
Lemma ContextLogger_WithValues_valid (cl : ContextLogger) (v : gmap string any) (w : World) :
  ∃ e w', ContextLogger_WithValues cl v w = Done e w' ∧ fields_of e w' = Some v.
Proof.
  eexists _, _. split; [apply ContextLogger_WithValues_Done|]. apply lookup_snoc2_new.
Qed.

Lemma entry_WithValues_valid (e : entry) (v d : gmap string any) (w : World) :
  fields_of e w = Some d →
  ∃ e' w', entry_WithValues e v w = Done e' w' ∧
           fields_of e' w' = Some (v ∪ d) ∧ fields_of e w' = Some d.
Proof.
  intros H. eexists _, _. split; [by apply (entry_WithValues_Done _ _ d)|].
  split; [apply lookup_snoc_new|]. unfold fields_of. simpl. by eapply lookup_snoc_old.
Qed.

(** A chain of enrichments returns, and the last entry holds the
    accumulated mapping; map objects that existed before keep their
    content. *)
Lemma entry_WithValues_chain_Done (vs : list Values) :
  ∀ (e : entry) (d : gmap string any) (w : World),
    maps w !! Data (e_Entry e) = Some d →
    ∃ e' w',
      entry_WithValues_chain e vs w = Done e' w' ∧
      fields_of e' w' = Some (accumulated d vs) ∧
      e_breaker e' = e_breaker e ∧
      ∀ l m, maps w !! l = Some m → maps w' !! l = Some m.
Proof.
  induction vs as [|v vs IH]; intros e d w H.
  - exists e, w. by repeat split.
  - simpl. unfold bind. rewrite (entry_WithValues_Done _ _ d) by done.
    destruct (IH {| e_Entry := {| Logger := Logger (e_Entry e); Data := length (maps w) |};
                    e_breaker := e_breaker e |}
                 (v ∪ d) (set_maps (λ h, h ++ [v ∪ d]) w))
      as (e' & w' & Hrun & Hf & Hb & Hold).
    { apply lookup_snoc_new. }
    exists e', w'. repeat split; try done.
    intros l m Hl. apply Hold. simpl. by eapply lookup_snoc_old.
Qed.

(** C4. [WithValues] on an entry returns a new entry whose field mapping is
    the union of the entry's fields and the supplied values, the supplied
    ones winning on a shared key, and leaves the entry's own mapping as it
    was: after [e.WithValues(v1).WithValues(v2)] the last entry yields
    [v2] over [v1] over the fields of [e], the intermediate entry still
    yields [v1] over the fields of [e], and [e] its own fields. *)
Theorem entry_WithValues_union_no_mutation
    (e : entry) (v1 v2 d : gmap string any) (w : World) :
  maps w !! Data (e_Entry e) = Some d →
  ∃ e1 w1 e2 w2,
    entry_WithValues e v1 w = Done e1 w1 ∧
    fields_of e1 w1 = Some (v1 ∪ d) ∧
    fields_of e w1 = Some d ∧
    entry_WithValues e1 v2 w1 = Done e2 w2 ∧
    fields_of e2 w2 = Some (v2 ∪ (v1 ∪ d)) ∧
    fields_of e1 w2 = Some (v1 ∪ d) ∧
    fields_of e w2 = Some d ∧
    Data (e_Entry e1) ≠ Data (e_Entry e) ∧
    Data (e_Entry e2) ≠ Data (e_Entry e1) ∧
    ∀ k, (v1 ∪ d) !! k = match v1 !! k with Some x => Some x | None => d !! k end.
Proof.
  intros H.
  pose proof (lookup_lt_Some _ _ _ H) as Hlt.
  eexists _, _, _, _.
  split; [by apply (entry_WithValues_Done _ _ d)|].
  split; [apply lookup_snoc_new|].
  split; [unfold fields_of; simpl; by eapply lookup_snoc_old|].
  split; [apply (entry_WithValues_Done _ _ (v1 ∪ d)); apply lookup_snoc_new|].
  unfold fields_of; simpl.
  split; [apply lookup_snoc_new|].
  split; [eapply lookup_snoc_old; apply lookup_snoc_new|].
  split; [eapply lookup_snoc_old; by eapply lookup_snoc_old|].
  split; [lia|].
  split; [rewrite length_app; simpl; lia|].
  intros k. rewrite lookup_union. by destruct (v1 !! k), (d !! k).
Qed.

Lemma entry_WithValues_union_no_mutation_witness :
  maps example_store !! Data (e_Entry example_entry) = Some ∅ ∧
  ∃ e1 w1 e2 w2,
    entry_WithValues example_entry values_a1 example_store = Done e1 w1 ∧
    fields_of e1 w1 = Some (values_a1 ∪ ∅) ∧
    fields_of example_entry w1 = Some ∅ ∧
    entry_WithValues e1 values_b2 w1 = Done e2 w2 ∧
    fields_of e2 w2 = Some (values_b2 ∪ (values_a1 ∪ ∅)) ∧
    fields_of e1 w2 = Some (values_a1 ∪ ∅) ∧
    fields_of example_entry w2 = Some ∅ ∧
    Data (e_Entry e1) ≠ Data (e_Entry example_entry) ∧
    Data (e_Entry e2) ≠ Data (e_Entry e1) ∧
    ∀ k, (values_a1 ∪ ∅) !! k
         = match values_a1 !! k with Some x => Some x | None => (∅ : Values) !! k end.
Proof.
  split; [reflexivity|].
  apply (entry_WithValues_union_no_mutation example_entry values_a1 values_b2 ∅ example_store).
  reflexivity.
Defined.

(** The example of the specification, run on the root logger:
    [WithValues({"a":1}).WithValues({"b":2}).GetValues()] is
    [{"a":1,"b":2}] and the intermediate entry still yields [{"a":1}]. *)
Example WithValues_a1_b2 (cl : ContextLogger) (w : World) :
  ∃ e1 w1 e2 w2,
    ContextLogger_WithValues cl values_a1 w = Done e1 w1 ∧
    entry_WithValues e1 values_b2 w1 = Done e2 w2 ∧
    fields_of e2 w2 = Some (<["a" := int_any 1]> (<["b" := int_any 2]> ∅)) ∧
    fields_of e1 w2 = Some {[ "a" := int_any 1 ]}.
Proof.
  eexists _, _, _, _.
  split; [apply ContextLogger_WithValues_Done|].
  split; [apply (entry_WithValues_Done _ _ values_a1); apply lookup_snoc2_new|].
  unfold fields_of; simpl. split.
  - rewrite lookup_snoc_new. reflexivity.
  - eapply lookup_snoc_old. apply lookup_snoc2_new.
Qed.

(** C9. [GetValues] on the root logger returns an empty mapping in every
    store, whatever was done with the logger before; [GetValues] on an
    entry derived from the logger by [WithValues(v)] and further
    enrichments [vs] returns the mapping accumulated from [v] and [vs]. *)
Theorem GetValues_root_empty_entry_accumulated
    (cl : ContextLogger) (w : World) (v : Values) (vs : list Values) :
  (∃ r w', ContextLogger_GetValues cl w = Done r w' ∧ maps w' !! r = Some ∅) ∧
  (∃ e1 w1 e w' r,
     ContextLogger_WithValues cl v w = Done e1 w1 ∧
     entry_WithValues_chain e1 vs w1 = Done e w' ∧
     entry_GetValues e w' = Done r w' ∧
     maps w' !! r = Some (accumulated ∅ (v :: vs)) ∧
     ∃ r' w'', ContextLogger_GetValues cl w' = Done r' w'' ∧ maps w'' !! r' = Some ∅).
Proof.
  split.
  - eexists _, _. split; [reflexivity|]. apply lookup_snoc_new.
  - destruct (entry_WithValues_chain_Done vs
                {| e_Entry := {| Logger := cl_Logger cl; Data := S (length (maps w)) |};
                   e_breaker := cl_breaker cl |}
                v (set_maps (λ h, (h ++ [∅]) ++ [v]) w))
      as (e & w' & Hrun & Hf & _ & _).
    { apply lookup_snoc2_new. }
    eexists _, _, e, w', _.
    split; [apply ContextLogger_WithValues_Done|].
    split; [exact Hrun|].
    split; [reflexivity|].
    split.
    + unfold fields_of in Hf. simpl in Hf. rewrite Hf.
      unfold accumulated. simpl. by rewrite (right_id_L ∅ (∪)).
    + eexists _, _. split; [reflexivity|]. apply lookup_snoc_new.
Qed.

(* ===================================================================== *)
(** * Context propagation: [NewContext] and [FromContext] *)
(* ===================================================================== *)

Lemma FromContext_same (cl : ContextLogger) (e : entry) (ctx : Context) :
  ContextLogger_FromContext cl ctx = entry_FromContext e ctx.
Proof. reflexivity. Qed.

(** [NewContext] of an entry followed by [FromContext] (of any receiver)
    returns that entry, hence an entry with the field mapping that was
    stored. *)
Lemma entry_NewContext_FromContext (e e' : entry) (cl : ContextLogger) (ctx : Context) (w : World) :
  ∃ ctx',
    entry_NewContext e ctx w = Done ctx' w ∧
    entry_FromContext e' ctx' = Some e ∧
    ContextLogger_FromContext cl ctx' = Some e ∧
    fields_of e w = maps w !! Data (e_Entry e).
Proof. eexists. by repeat split. Qed.

(** [FromContext] is nil on a context built without [NewContext]. *)
Lemma FromContext_never_NewContext (ctx : Context) :
  never_NewContext ctx →
  ∀ (e : entry) (cl : ContextLogger),
    entry_FromContext e ctx = None ∧ ContextLogger_FromContext cl ctx = None.
Proof.
  induction 1 as [|parent n val _ IH]; intros e cl.
  - by split.
  - destruct (IH e cl) as [IHe IHcl].
    unfold entry_FromContext, ContextLogger_FromContext in *. simpl.
    by split.
Qed.

(** C1, at the root logger.  [NewContext] of a [ContextLogger] stores the
    [*log.Entry] returned by [cl.WithFields], not an [*entry]; the type
    assertion of [FromContext] fails on it, so [FromContext] on the
    resulting context returns nil for every logger, context and store,
    where the specification asks for a non-nil entry. *)
Theorem ContextLogger_NewContext_FromContext_nil
    (cl : ContextLogger) (e : entry) (ctx : Context) (w : World) :
  ∃ ctx' w' le,
    ContextLogger_NewContext cl ctx w = Done ctx' w' ∧
    Context_Value ctx' ctxValue = log_Entry_ptr (Some le) ∧
    maps w' !! Data le = Some ∅ ∧
    ContextLogger_FromContext cl ctx' = None ∧
    entry_FromContext e ctx' = None.
Proof.
  unfold ContextLogger_NewContext, bind, ret.
  rewrite log_Logger_WithFields_Done.
  eexists _, _, _. split; [reflexivity|].
  split; [reflexivity|].
  split; [apply lookup_snoc2_new|].
  by split.
Qed.

(* ===================================================================== *)
(** * The constructor [New] *)
(* ===================================================================== *)

Section New_lemmas.

Lemma os_OpenFile_refused (p errno : string) (w : World) :
  unopenable w !! p = Some errno →
  os_OpenFile p New_flag New_perm w = Done (inr (PathError "open" p errno)) w.
Proof.
  intros H. unfold os_OpenFile, bind, get. by rewrite H.
Qed.

Lemma os_OpenFile_opened (p : string) (w : World) :
  unopenable w !! p = None →
  os_OpenFile p New_flag New_perm w = Done (inl (length (files w))) (opened w p).
Proof.
  intros H. unfold os_OpenFile, bind, get, opened. rewrite H.
  replace (has_flag New_flag os_O_CREATE) with true by reflexivity.
  rewrite andb_false_r.
  by destruct (bool_decide (fs w !! p = None)).
Qed.

Lemma opened_files (w : World) (p : string) :
  files (opened w p) = files w ++ [New_File p].
Proof. unfold opened. by destruct (bool_decide _). Qed.

Lemma opened_rest (w : World) (p : string) :
  maps (opened w p) = maps w ∧ loggers (opened w p) = loggers w ∧
  mutexes (opened w p) = mutexes w ∧ unopenable (opened w p) = unopenable w ∧
  stdout (opened w p) = stdout w ∧ stderr (opened w p) = stderr w.
Proof. unfold opened. by destruct (bool_decide _). Qed.

Lemma foldl_opened_files (ps : list string) :
  ∀ w, files (foldl opened w ps) = files w ++ map New_File ps.
Proof.
  induction ps as [|p ps IH]; intros w; simpl.
  - by rewrite app_nil_r.
  - by rewrite IH, opened_files, <- app_assoc.
Qed.

Lemma foldl_opened_rest (ps : list string) :
  ∀ w, maps (foldl opened w ps) = maps w ∧ loggers (foldl opened w ps) = loggers w ∧
       mutexes (foldl opened w ps) = mutexes w ∧
       unopenable (foldl opened w ps) = unopenable w ∧
       stdout (foldl opened w ps) = stdout w ∧ stderr (foldl opened w ps) = stderr w.
Proof.
  induction ps as [|p ps IH]; intros w; simpl; [done|].
  destruct (IH (opened w p)) as (-> & -> & -> & -> & -> & ->).
  apply opened_rest.
Qed.

Lemma first_refused_ext (w w' : World) (outs : list string) :
  unopenable w' = unopenable w → first_refused w' outs = first_refused w outs.
Proof.
  intros H. induction outs as [|p outs IH]; simpl; [done|]. by rewrite H, IH.
Qed.

Lemma opened_prefix_ext (w w' : World) (outs : list string) :
  unopenable w' = unopenable w → opened_prefix w' outs = opened_prefix w outs.
Proof.
  intros H. induction outs as [|p outs IH]; simpl; [done|]. by rewrite H, IH.
Qed.

(** The loop over the outputs: it stops at the first refused path with the
    wrapped error, having opened the paths before it; otherwise it opens
    every path and appends the files, in order, to the writers. *)
Lemma New_range_Done (outs : list string) :
  ∀ (writers : list Writer) (w : World),
    New_range outs writers w
    = Done
        match first_refused w outs with
        | Some (p, errno) =>
          inr (wrapError ("error open file path '" +:+ p +:+ "'")
                 (PathError "open" p errno))
        | None => inl (writers ++ map os_File (seq (length (files w)) (length outs)))
        end
        (foldl opened w (opened_prefix w outs)).
Proof.
  induction outs as [|p outs IH]; intros writers w; simpl.
  - by rewrite app_nil_r.
  - unfold bind. destruct (unopenable w !! p) as [errno|] eqn:Hp.
    + by rewrite (os_OpenFile_refused _ errno).
    + rewrite os_OpenFile_opened by done. rewrite IH.
      rewrite (first_refused_ext w), (opened_prefix_ext w) by apply opened_rest.
      rewrite opened_files, length_app, Nat.add_1_r. simpl.
      by rewrite <- app_assoc.
Qed.

Lemma first_refused_None (w : World) (outs : list string) :
  first_refused w outs = None ↔ ∀ p, p ∈ outs → unopenable w !! p = None.
Proof.
  induction outs as [|p outs IH]; simpl.
  - split; [|done]. intros _ p Hp. by apply elem_of_nil in Hp.
  - destruct (unopenable w !! p) as [errno|] eqn:Hp.
    + split; [done|]. intros H. specialize (H p (list_elem_of_here _ _)). congruence.
    + rewrite IH. split.
      * intros H q [->|Hq]%elem_of_cons; auto.
      * intros H q Hq. apply H. by apply list_elem_of_further.
Qed.

Lemma first_refused_None_prefix (w : World) (outs : list string) :
  first_refused w outs = None → opened_prefix w outs = outs.
Proof.
  induction outs as [|p outs IH]; simpl; [done|].
  destruct (unopenable w !! p); [done|]. intros H. by rewrite IH.
Qed.

End New_lemmas.

(** What a call of [New] with a channel does: it always returns; it opens
    the output paths before the first refused one and touches no map and
    neither standard stream; it fails on a refused path, then on a level
    the parser rejects, and otherwise returns the configured logger. *)
Lemma New_Some (ch : nat) (level : string) (outs : list string) (w : World) :
  ∃ r w',
    New (Some ch) level outs w = Done r w' ∧
    files w' = files w ++ map New_File (opened_prefix w outs) ∧
    maps w' = maps w ∧ unopenable w' = unopenable w ∧
    stdout w' = stdout w ∧ stderr w' = stderr w ∧
    match first_refused w outs with
    | Some (p, errno) =>
      r = (None, Some (wrapError ("error open file path '" +:+ p +:+ "'")
                         (PathError "open" p errno)))
    | None =>
      match log_ParseLevel level with
      | inr perr =>
        r = (None, Some (wrapError ("error parse level value '" +:+ level +:+ "'") perr))
      | inl lvl =>
        r = (Some {| cl_Logger := length (loggers w); cl_mutex := length (mutexes w);
                     cl_breaker := Some ch |}, None) ∧
        loggers w' = loggers w ++ [New_Logger (length (files w)) (length outs) lvl] ∧
        mutexes w' = mutexes w ++ [false]
      end
    end.
Proof.
  unfold New, bind, log_New, new_logger, log_Logger_SetFormatter, update_logger,
    bind, load, modify. simpl.
  rewrite lookup_snoc_new.
  set (W1 := set_loggers _ (set_loggers _ w)).
  assert (HW1 : loggers W1
                = loggers w ++ [ {| Out := fileWriter os_Stderr; Hooks := [];
                                    Formatter := New_Formatter; ReportCaller := false;
                                    Level := log_InfoLevel |} ])
    by apply insert_snoc_new.
  rewrite New_range_Done.
  rewrite (first_refused_ext w W1), (opened_prefix_ext w W1) by done.
  set (w1 := foldl opened W1 _).
  pose proof (foldl_opened_files (opened_prefix w outs) W1) as Hf.
  change (files W1) with (files w) in Hf. fold w1 in Hf.
  destruct (foldl_opened_rest (opened_prefix w outs) W1)
    as (Hm & Hl & Hmu & Hu & Ho & He).
  fold w1 in Hm, Hl, Hmu, Hu, Ho, He. rewrite HW1 in Hl.
  change (maps W1) with (maps w) in Hm. change (mutexes W1) with (mutexes w) in Hmu.
  change (unopenable W1) with (unopenable w) in Hu.
  change (stdout W1) with (stdout w) in Ho. change (stderr W1) with (stderr w) in He.
  change (files W1) with (files w).
  clearbody w1. clear HW1. clearbody W1.
  destruct (first_refused w outs) as [[p errno]|] eqn:Hfr.
  - eexists _, _. by repeat split.
  - unfold log_Logger_SetOut, log_Logger_SetReportCaller, log_Logger_SetLevel,
      update_logger, bind, load, modify. simpl.
    repeat (progress (rewrite ?Hl, ?lookup_snoc_new, ?insert_snoc_new; simpl)).
    destruct (log_ParseLevel level) as [lvl|perr].
    + repeat (progress (rewrite ?Hl, ?lookup_snoc_new, ?insert_snoc_new; simpl)).
      unfold new_mutex, ret. simpl.
      eexists _, _. split; [reflexivity|]. simpl.
      rewrite Hmu, Hl, !insert_snoc_new. by repeat split.
    + eexists _, _. by repeat split.
Qed.

(** A successful call, read backwards. *)
Lemma New_success_inv (b : chan) (level : string) (outs : list string)
    (w w' : World) (cl : ContextLogger) (err : option error) :
  New b level outs w = Done (Some cl, err) w' →
  ∃ ch lvl,
    b = Some ch ∧ err = None ∧
    first_refused w outs = None ∧ log_ParseLevel level = inl lvl ∧
    cl = {| cl_Logger := length (loggers w); cl_mutex := length (mutexes w);
            cl_breaker := Some ch |} ∧
    loggers w' = loggers w ++ [New_Logger (length (files w)) (length outs) lvl] ∧
    mutexes w' = mutexes w ++ [false] ∧
    files w' = files w ++ map New_File outs ∧
    maps w' = maps w ∧ stdout w' = stdout w ∧ stderr w' = stderr w.
Proof.
  intros H. destruct b as [ch|]; [|discriminate].
  destruct (New_Some ch level outs w)
    as (r & w'' & Hrun & Hf & Hm & _ & Ho & He & Hr).
  rewrite Hrun in H. injection H as -> ->.
  destruct (first_refused w outs) as [[p errno]|] eqn:Hfr; [discriminate|].
  destruct (log_ParseLevel level) as [lvl|perr]; [|discriminate].
  destruct Hr as (Hr & Hl & Hmu). injection Hr as -> ->.
  rewrite (first_refused_None_prefix _ _ Hfr) in Hf.
  exists ch, lvl. by repeat split.
Qed.

(** C5. With a nil shutdown channel [New] returns the error
    [breaker can't be nil] and no logger, in the store it started from: no
    file is opened or created, whatever the level and the outputs.  Hence
    a logger that [New] returns carries the non-nil channel it was given. *)
Theorem New_nil_breaker
    (b : chan) (level : string) (outs : list string) (w : World) :
  New None level outs w
  = Done (None, Some (errorString "breaker can't be nil")) w ∧
  ∀ cl err w',
    New b level outs w = Done (Some cl, err) w' →
    b ≠ None ∧ cl_breaker cl = b ∧ cl_breaker cl ≠ None.
Proof.
  split; [reflexivity|].
  intros cl err w' H.
  destruct (New_success_inv _ _ _ _ _ _ _ H) as (ch & lvl & -> & _ & _ & _ & -> & _).
  by repeat split.
Qed.

Lemma New_nil_breaker_witness :
  New (Some 0%nat) "info" [] empty_world
  = Done (Some example_logger, None) example_logger_store ∧
  New None "info" [] empty_world
  = Done (None, Some (errorString "breaker can't be nil")) empty_world ∧
  Some 0%nat ≠ None ∧ cl_breaker example_logger = Some 0%nat ∧
  cl_breaker example_logger ≠ None.
Proof.
  split; [reflexivity|].
  split; [apply (New_nil_breaker (Some 0%nat) "info" [] empty_world)|].
  apply (proj2 (New_nil_breaker (Some 0%nat) "info" [] empty_world)
           example_logger None example_logger_store).
  reflexivity.
Defined.

(* ===================================================================== *)
(** * Error messages *)
(* ===================================================================== *)

Lemma append_assoc (a b c : string) : (a +:+ b) +:+ c = a +:+ b +:+ c.
Proof.
  induction a as [|x a IH]; [reflexivity|].
  change (String x ((a +:+ b) +:+ c) = String x (a +:+ b +:+ c)).
  by rewrite IH.
Qed.

Lemma prefix_append (s post : string) : String.prefix s (s +:+ post) = true.
Proof.
  induction s as [|c s IH].
  - by destruct post.
  - change (String.prefix (String c s) (String c (s +:+ post)) = true).
    simpl. by destruct (ascii_dec c c).
Qed.

Lemma Contains_prefix (msg s : string) :
  String.prefix s msg = true → Contains msg s = true.
Proof. intros H. destruct msg; cbn [Contains]; by rewrite H. Qed.

(** [Contains] decides [mentions]. *)
Lemma mentions_Contains (msg s : string) :
  mentions msg s → Contains msg s = true.
Proof.
  intros (pre & post & ->).
  induction pre as [|c pre IH].
  - change ("" +:+ s +:+ post) with (s +:+ post).
    apply Contains_prefix, prefix_append.
  - change (String c pre +:+ s +:+ post) with (String c (pre +:+ s +:+ post)).
    simpl. rewrite IH. apply orb_true_r.
Qed.

(** When [Error] gives the message, [Error_head] is the message. *)
Lemma Error_head_Error (e : error) :
  ∀ msg, Error e = Some msg → Error_head e = msg.
Proof.
  induction e as [s|m e IH|op path errno|pre v post|pre q]; intros msg; simpl.
  - by intros [= ->].
  - destruct (Error e) as [t|]; [|done]. simpl. intros [= <-]. by rewrite (IH t).
  - by intros [= ->].
  - destruct (fmt_plus_v v); [|done]. simpl. by intros [= ->].
  - destruct (fmt_q q); [|done]. simpl. by intros [= ->].
Qed.

Lemma level_of_name_Some (l : string) (L : log_Level) :
  level_of_name l = Some L → l ∈ parser_level_names.
Proof.
  unfold level_of_name, parser_level_names. intros H.
  repeat match type of H with
         | context [String.eqb l ?n] =>
           destruct (String.eqb_spec l n) as [->|?]; [set_solver|]; simpl in H
         end.
  discriminate.
Qed.

Lemma level_of_name_names (name : string) :
  name ∈ parser_level_names → is_Some (level_of_name name).
Proof.
  unfold parser_level_names. intros H.
  repeat (apply elem_of_cons in H as [->|H]; [by eexists|]).
  by apply elem_of_nil in H.
Qed.

(** The parser accepts exactly the strings whose lower case is one of its
    level names; its error keeps the string as it was given. *)
Lemma log_ParseLevel_rejects (level : string) :
  in_names parser_level_names level = false →
  log_ParseLevel level = inr (quotedError "not a valid logrus Level: " level).
Proof.
  unfold in_names, log_ParseLevel.
  destruct (strings_ToLower level) as [l|]; [|done]. simpl.
  destruct (level_of_name l) as [L|] eqn:HL; [|done].
  intros H. apply bool_decide_eq_false in H. destruct H.
  by eapply level_of_name_Some.
Qed.

Lemma log_ParseLevel_accepts (level : string) :
  in_names parser_level_names level = true →
  ∃ lvl, log_ParseLevel level = inl lvl.
Proof.
  unfold in_names, log_ParseLevel.
  destruct (strings_ToLower level) as [l|]; [|done]. simpl.
  intros H. apply bool_decide_eq_true in H.
  destruct (level_of_name_names l H) as [L ->]. by exists L.
Qed.

Lemma log_ParseLevel_inl (level : string) (lvl : log_Level) :
  log_ParseLevel level = inl lvl → in_names parser_level_names level = true.
Proof.
  intros H. destruct (in_names parser_level_names level) eqn:Hn; [done|].
  rewrite (log_ParseLevel_rejects level Hn) in H. discriminate.
Qed.

Lemma log_ParseLevel_inr (level : string) (perr : error) :
  log_ParseLevel level = inr perr → in_names parser_level_names level = false.
Proof.
  intros H. destruct (in_names parser_level_names level) eqn:Hn; [|done].
  destruct (log_ParseLevel_accepts level Hn) as [lvl Hl]. congruence.
Qed.

(** The parser at work: letter case does not matter, [warn] and [trace]
    are level names, and the dotted capital I (U+0130, bytes C4 B0) is
    lower-cased to [i]. *)
Example log_ParseLevel_examples :
  log_ParseLevel "WARNING" = inl log_WarnLevel ∧
  log_ParseLevel "warn" = inl log_WarnLevel ∧
  log_ParseLevel "Trace" = inl log_TraceLevel ∧
  log_ParseLevel (String "196" (String "176" "nfo")) = inl log_InfoLevel ∧
  log_ParseLevel "verbose" = inr (quotedError "not a valid logrus Level: " "verbose").
Proof. repeat split; reflexivity. Qed.

(** [%q] escapes the backslash, the double quote and the control
    characters. *)
Example fmt_q_examples :
  fmt_q "verbose" = Some (String "034" ("verbose" +:+ String "034" "")) ∧
  fmt_q (String "a" (String "092" "b"))
  = Some (String "034" (String "a" (String "092" (String "092"
            (String "b" (String "034" "")))))) ∧
  fmt_q (String "010" "") = Some (String "034" (String "092" (String "n" (String "034" "")))) ∧
  fmt_q (String "001" "") = Some (String "034" (String "092" ("x01" +:+ String "034" ""))) ∧
  fmt_q (String "196" (String "176" "nfo")) = None.
Proof. repeat split; reflexivity. Qed.

(** C7, as the code has it.  When the level string, lower-cased as Go
    does, is none of the level names of the parser (panic, fatal, error,
    warn, warning, info, debug, trace), [New] returns an error and no
    logger, for every channel, list of outputs and store; in a call whose
    channel is not nil and whose output paths open, that error is the
    parser's error wrapped in [error parse level value '<level>'], its
    message starts with
    [error parse level value '<level>': not a valid logrus Level: ] and so
    mentions the level string, and is that text followed by the quoted
    level string whenever the level string has no byte from 0x80 on. *)
Theorem New_rejected_level
    (b : chan) (level : string) (outs : list string) (w : World) :
  in_names parser_level_names level = false →
  (∃ err w', New b level outs w = Done (None, Some err) w') ∧
  (b ≠ None → first_refused w outs = None →
   ∃ err w' tail,
     New b level outs w = Done (None, Some err) w' ∧
     err = wrapError ("error parse level value '" +:+ level +:+ "'")
             (quotedError "not a valid logrus Level: " level) ∧
     Error_head err
     = "error parse level value '" +:+ level +:+ "': not a valid logrus Level: "
       +:+ tail ∧
     mentions (Error_head err) level ∧
     Contains (Error_head err) level = true ∧
     ∀ q, fmt_q level = Some q →
          Error err
          = Some ("error parse level value '" +:+ level +:+
                  "': not a valid logrus Level: " +:+ q)).
Proof.
  intros Hn. pose proof (log_ParseLevel_rejects level Hn) as Hp.
  destruct b as [ch|].
  - destruct (New_Some ch level outs w) as (r & w' & Hrun & _ & _ & _ & _ & _ & Hr).
    rewrite Hp in Hr. split.
    + destruct (first_refused w outs) as [[p errno]|]; subst r; eauto.
    + intros _ Hfr. rewrite Hfr in Hr. subst r.
      assert (Hhead : ∃ tail,
                 Error_head (wrapError ("error parse level value '" +:+ level +:+ "'")
                               (quotedError "not a valid logrus Level: " level))
                 = "error parse level value '" +:+ level +:+
                   "': not a valid logrus Level: " +:+ tail).
      { simpl. destruct (fmt_q level) as [q|]; eexists; by rewrite !append_assoc. }
      destruct Hhead as [tail Hhead].
      assert (Hm : mentions
                     (Error_head (wrapError ("error parse level value '" +:+ level +:+ "'")
                                    (quotedError "not a valid logrus Level: " level)))
                     level).
      { rewrite Hhead.
        by exists "error parse level value '", ("': not a valid logrus Level: " +:+ tail). }
      eexists _, _, tail. split; [exact Hrun|].
      split; [reflexivity|]. split; [exact Hhead|]. split; [exact Hm|].
      split; [by apply mentions_Contains|].
      intros q Hq. simpl. rewrite Hq. simpl. by rewrite !append_assoc.
  - split; [by eexists _, _|]. by intros [].
Qed.

Lemma New_rejected_level_witness :
  in_names parser_level_names "verbose" = false ∧
  Some 0%nat ≠ (None : chan) ∧
  first_refused empty_world ["a.log"] = None ∧
  ∃ err w' tail,
    New (Some 0%nat) "verbose" ["a.log"] empty_world = Done (None, Some err) w' ∧
    err = wrapError ("error parse level value '" +:+ "verbose" +:+ "'")
            (quotedError "not a valid logrus Level: " "verbose") ∧
    Error_head err
    = "error parse level value '" +:+ "verbose" +:+ "': not a valid logrus Level: "
      +:+ tail ∧
    mentions (Error_head err) "verbose" ∧
    Contains (Error_head err) "verbose" = true ∧
    ∀ q, fmt_q "verbose" = Some q →
         Error err
         = Some ("error parse level value '" +:+ "verbose" +:+
                 "': not a valid logrus Level: " +:+ q).
Proof.
  split; [reflexivity|]. split; [discriminate|]. split; [reflexivity|].
  apply (proj2 (New_rejected_level (Some 0%nat) "verbose" ["a.log"] empty_world
                  eq_refl)).
  - discriminate.
  - reflexivity.
Defined.

(** C7 as stated fails.  The level names the package and its
    specification give are debug, info, warning, error, fatal and panic;
    [warn] is none of them, in any letter case, and [New] called with a
    channel and the level [warn] returns a logger and no error: the parser
    of the library knows [warn] (and [trace]) as level names too. *)
Lemma New_accepts_warn :
  in_names package_level_names "warn" = false ∧
  log_ParseLevel "warn" = inl log_WarnLevel ∧
  ∃ cl w',
    New (Some 0%nat) "warn" [] empty_world = Done (Some cl, None) w' ∧
    (Level <$> loggers w' !! cl_Logger cl) = Some log_WarnLevel.
Proof.
  split; [reflexivity|]. split; [reflexivity|].
  eexists _, _. split; [vm_compute; reflexivity|]. reflexivity.
Qed.

(** The guards in front of the parser: with a nil channel the error of
    [New] is [breaker can't be nil], which does not mention the rejected
    level string [verbose]. *)
Example level_not_mentioned_with_nil_breaker :
  (∃ perr, log_ParseLevel "verbose" = inr perr) ∧
  ∃ err,
    New None "verbose" [] empty_world = Done (None, Some err) empty_world ∧
    Error err = Some "breaker can't be nil" ∧
    ¬ mentions "breaker can't be nil" "verbose".
Proof.
  split; [by eexists|].
  eexists. split; [reflexivity|]. split; [reflexivity|].
  intros H%mentions_Contains. discriminate.
Qed.

(** The same with a refused output path: the error names the path and the
    system's error, not the level. *)
Example level_not_mentioned_with_refused_path :
  ∃ err w',
    New (Some 0%nat) "verbose" ["/root/b.log"] refusing_store = Done (None, Some err) w' ∧
    Error err
    = Some "error open file path '/root/b.log': open /root/b.log: permission denied" ∧
    ¬ mentions "error open file path '/root/b.log': open /root/b.log: permission denied"
        "verbose".
Proof.
  eexists _, _. split; [reflexivity|]. split; [reflexivity|].
  intros H%mentions_Contains. discriminate.
Qed.

(* ===================================================================== *)
(** * Configuration of the constructed logger *)
(* ===================================================================== *)

(** The layout of the timestamps: day, month and four-digit year with
    dots, a space, then hour, minute and second with colons, each of two
    digits. *)
Lemma New_timestamp_layout :
  time_layout "02.01.2006 15:04:05"
  = Some [stdZeroDay; stdLiteral "."; stdZeroMonth; stdLiteral "."; stdLongYear;
          stdLiteral " "; stdHour; stdLiteral ":"; stdZeroMinute; stdLiteral ":";
          stdZeroSecond].
Proof. reflexivity. Qed.

Lemma New_timestamp_Format (t : Time) :
  time_Format t "02.01.2006 15:04:05"
  = Some (appendInt (t_day t) 2 +:+ "." +:+ appendInt (t_month t) 2 +:+ "." +:+
          appendInt (t_year t) 4 +:+ " " +:+ appendInt (t_hour t) 2 +:+ ":" +:+
          appendInt (t_minute t) 2 +:+ ":" +:+ appendInt (t_second t) 2 +:+ "").
Proof. reflexivity. Qed.

Example New_timestamp_example :
  time_Format {| t_year := 2019; t_month := 3; t_day := 7;
                 t_hour := 9; t_minute := 5; t_second := 1 |}
    "02.01.2006 15:04:05"
  = Some "07.03.2019 09:05:01".
Proof. reflexivity. Qed.

(** The six fixed keys and the names the formatter gives them. *)
Lemma New_FieldMap_renames :
  dom New_FieldMap
  = {[ log_FieldKeyFile; log_FieldKeyFunc; log_FieldKeyLogrusError;
       log_FieldKeyTime; log_FieldKeyLevel; log_FieldKeyMsg ]} ∧
  log_FieldMap_resolve New_FieldMap log_FieldKeyFile = "file" ∧
  log_FieldMap_resolve New_FieldMap log_FieldKeyFunc = "func" ∧
  log_FieldMap_resolve New_FieldMap log_FieldKeyLogrusError = "logger_error" ∧
  log_FieldMap_resolve New_FieldMap log_FieldKeyTime = "timestamp" ∧
  log_FieldMap_resolve New_FieldMap log_FieldKeyLevel = "level" ∧
  log_FieldMap_resolve New_FieldMap log_FieldKeyMsg = "message".
Proof. repeat split; reflexivity. Qed.

(** The open flags are exactly append, write-only and create; the
    permission is octal 600. *)
Lemma New_flag_perm :
  New_flag = 1089 ∧
  has_flag New_flag os_O_APPEND = true ∧
  has_flag New_flag os_O_CREATE = true ∧
  Z.land New_flag (Z.lor os_O_WRONLY os_O_RDWR) = os_O_WRONLY ∧
  Z.land New_flag (Z.lnot (Z.lor (Z.lor os_O_APPEND os_O_WRONLY) os_O_CREATE)) = 0 ∧
  New_perm = 6 * 8 ^ 2 + 0 * 8 + 0.
Proof. repeat split; reflexivity. Qed.

(** Each of the level names the package exports is accepted by the
    parser. *)
Lemma exported_levels_parse :
  log_ParseLevel DebugLevel = inl log_DebugLevel ∧
  log_ParseLevel InfoLevel = inl log_InfoLevel ∧
  log_ParseLevel WarnLevel = inl log_WarnLevel ∧
  log_ParseLevel ErrorLevel = inl log_ErrorLevel ∧
  log_ParseLevel FatalLevel = inl log_FatalLevel ∧
  log_ParseLevel PanicLevel = inl log_PanicLevel.
Proof. repeat split; reflexivity. Qed.

(** C8. A logger constructed by [New] has the JSON formatter with the
    timestamp layout [02.01.2006 15:04:05], that is DD.MM.YYYY HH:MM:SS,
    and with the six fixed keys renamed to file, func, logger_error,
    timestamp, level and message; and the call has opened one file per
    output path, in order, with the flags append, write-only and create
    and the permission 0600. *)
Theorem New_configuration
    (b : chan) (level : string) (outs : list string) (w w' : World)
    (cl : ContextLogger) (err : option error) :
  New b level outs w = Done (Some cl, err) w' →
  ∃ L,
    loggers w' !! cl_Logger cl = Some L ∧
    Formatter L = log_JSONFormatter "02.01.2006 15:04:05" New_FieldMap ∧
    (∀ t, time_Format t "02.01.2006 15:04:05"
          = Some (appendInt (t_day t) 2 +:+ "." +:+ appendInt (t_month t) 2 +:+ "." +:+
                  appendInt (t_year t) 4 +:+ " " +:+ appendInt (t_hour t) 2 +:+ ":" +:+
                  appendInt (t_minute t) 2 +:+ ":" +:+ appendInt (t_second t) 2 +:+ "")) ∧
    dom New_FieldMap
    = {[ log_FieldKeyFile; log_FieldKeyFunc; log_FieldKeyLogrusError;
         log_FieldKeyTime; log_FieldKeyLevel; log_FieldKeyMsg ]} ∧
    log_FieldMap_resolve New_FieldMap log_FieldKeyFile = "file" ∧
    log_FieldMap_resolve New_FieldMap log_FieldKeyFunc = "func" ∧
    log_FieldMap_resolve New_FieldMap log_FieldKeyLogrusError = "logger_error" ∧
    log_FieldMap_resolve New_FieldMap log_FieldKeyTime = "timestamp" ∧
    log_FieldMap_resolve New_FieldMap log_FieldKeyLevel = "level" ∧
    log_FieldMap_resolve New_FieldMap log_FieldKeyMsg = "message" ∧
    files w'
    = files w ++
      map (λ p, {| file_name := p;
                   file_flag := Z.lor (Z.lor os_O_APPEND os_O_WRONLY) os_O_CREATE;
                   file_perm := 6 * 8 ^ 2 + 0 * 8 + 0;
                   file_offset := 0; file_closed := false |}) outs.
Proof.
  intros H.
  destruct (New_success_inv _ _ _ _ _ _ _ H)
    as (ch & lvl & -> & -> & _ & _ & -> & Hl & _ & Hf & _).
  exists (New_Logger (length (files w)) (length outs) lvl). simpl.
  split; [rewrite Hl; apply lookup_snoc_new|].
  split; [reflexivity|].
  split; [exact New_timestamp_Format|].
  split; [apply New_FieldMap_renames|].
  repeat (split; [reflexivity|]).
  exact Hf.
Qed.

Lemma New_configuration_witness :
  New (Some 0%nat) "info" ["a.log"; "b.log"] empty_world
  = Done (Some example_logger, None)
         (store_after (New (Some 0%nat) "info" ["a.log"; "b.log"]) empty_world) ∧
  ∃ L,
    loggers (store_after (New (Some 0%nat) "info" ["a.log"; "b.log"]) empty_world)
    !! cl_Logger example_logger = Some L ∧
    Formatter L = log_JSONFormatter "02.01.2006 15:04:05" New_FieldMap ∧
    (∀ t, time_Format t "02.01.2006 15:04:05"
          = Some (appendInt (t_day t) 2 +:+ "." +:+ appendInt (t_month t) 2 +:+ "." +:+
                  appendInt (t_year t) 4 +:+ " " +:+ appendInt (t_hour t) 2 +:+ ":" +:+
                  appendInt (t_minute t) 2 +:+ ":" +:+ appendInt (t_second t) 2 +:+ "")) ∧
    dom New_FieldMap
    = {[ log_FieldKeyFile; log_FieldKeyFunc; log_FieldKeyLogrusError;
         log_FieldKeyTime; log_FieldKeyLevel; log_FieldKeyMsg ]} ∧
    log_FieldMap_resolve New_FieldMap log_FieldKeyFile = "file" ∧
    log_FieldMap_resolve New_FieldMap log_FieldKeyFunc = "func" ∧
    log_FieldMap_resolve New_FieldMap log_FieldKeyLogrusError = "logger_error" ∧
    log_FieldMap_resolve New_FieldMap log_FieldKeyTime = "timestamp" ∧
    log_FieldMap_resolve New_FieldMap log_FieldKeyLevel = "level" ∧
    log_FieldMap_resolve New_FieldMap log_FieldKeyMsg = "message" ∧
    files (store_after (New (Some 0%nat) "info" ["a.log"; "b.log"]) empty_world)
    = files empty_world ++
      map (λ p, {| file_name := p;
                   file_flag := Z.lor (Z.lor os_O_APPEND os_O_WRONLY) os_O_CREATE;
                   file_perm := 6 * 8 ^ 2 + 0 * 8 + 0;
                   file_offset := 0; file_closed := false |}) ["a.log"; "b.log"].
Proof.
  split; [vm_compute; reflexivity|].
  apply (New_configuration (Some 0%nat) "info" ["a.log"; "b.log"] empty_world
           (store_after (New (Some 0%nat) "info" ["a.log"; "b.log"]) empty_world)
           example_logger None).
  vm_compute; reflexivity.
Defined.

(* ===================================================================== *)
(** * Files left open by a failed construction *)
(* ===================================================================== *)

Lemma first_refused_Some_split (w : World) (outs : list string) (p errno : string) :
  first_refused w outs = Some (p, errno) →
  unopenable w !! p = Some errno ∧
  ∃ rest, outs = opened_prefix w outs ++ p :: rest.
Proof.
  induction outs as [|q outs IH]; simpl; [done|].
  destruct (unopenable w !! q) as [e|] eqn:Hq.
  - intros [= -> ->]. split; [done|]. by exists outs.
  - intros H. destruct (IH H) as (Hp & rest & Hrest).
    split; [done|]. exists rest. simpl. by rewrite <- Hrest.
Qed.

(** C10. When [New] returns an error after it has opened output files,
    because a later path is refused or because the level is rejected, the
    files it opened (the paths before the first refused one, all of them
    when only the level is rejected) are still in the table of open files,
    none of them closed. *)
Theorem New_error_leaves_files_open
    (ch : nat) (level : string) (outs : list string) (w w' : World) (err : error) :
  New (Some ch) level outs w = Done (None, Some err) w' →
  files w' = files w ++ map New_File (opened_prefix w outs) ∧
  (∀ i p, opened_prefix w outs !! i = Some p →
          ∃ f, files w' !! (length (files w) + i)%nat = Some f ∧
               file_name f = p ∧ file_closed f = false) ∧
  ((∃ p errno rest,
       first_refused w outs = Some (p, errno) ∧
       outs = opened_prefix w outs ++ p :: rest ∧
       err = wrapError ("error open file path '" +:+ p +:+ "'")
               (PathError "open" p errno)) ∨
   (∃ perr,
       first_refused w outs = None ∧ opened_prefix w outs = outs ∧
       log_ParseLevel level = inr perr ∧
       err = wrapError ("error parse level value '" +:+ level +:+ "'") perr)).
Proof.
  intros H.
  destruct (New_Some ch level outs w) as (r & w'' & Hrun & Hf & _ & _ & _ & _ & Hr).
  rewrite Hrun in H. injection H as -> ->.
  split; [exact Hf|]. split.
  - intros i p Hi. exists (New_File p). rewrite Hf.
    rewrite lookup_app_r by lia.
    replace (length (files w) + i - length (files w))%nat with i by lia.
    by rewrite list_lookup_fmap, Hi.
  - destruct (first_refused w outs) as [[p errno]|] eqn:Hfr.
    + left. injection Hr as ->.
      destruct (first_refused_Some_split _ _ _ _ Hfr) as (_ & rest & Hrest).
      by exists p, errno, rest.
    + right. destruct (log_ParseLevel level) as [lvl|perr].
      * destruct Hr as [Hr _]. discriminate.
      * injection Hr as ->. exists perr.
        by rewrite (first_refused_None_prefix _ _ Hfr).
Qed.

Lemma New_error_leaves_files_open_witness :
  New (Some 0%nat) "info" ["a.log"; "/root/b.log"; "c.log"] refusing_store
  = Done (None,
          Some (wrapError "error open file path '/root/b.log'"
                  (PathError "open" "/root/b.log" "permission denied")))
         (store_after (New (Some 0%nat) "info" ["a.log"; "/root/b.log"; "c.log"])
            refusing_store) ∧
  files (store_after (New (Some 0%nat) "info" ["a.log"; "/root/b.log"; "c.log"])
           refusing_store)
  = files refusing_store ++ [New_File "a.log"] ∧
  file_closed (New_File "a.log") = false.
Proof.
  split; [vm_compute; reflexivity|].
  split; [|reflexivity].
  apply (New_error_leaves_files_open 0%nat "info" ["a.log"; "/root/b.log"; "c.log"]
           refusing_store
           (store_after (New (Some 0%nat) "info" ["a.log"; "/root/b.log"; "c.log"])
              refusing_store)
           (wrapError "error open file path '/root/b.log'"
              (PathError "open" "/root/b.log" "permission denied"))).
  vm_compute; reflexivity.
Defined.

(* ===================================================================== *)
(** * Hook registration *)
(* ===================================================================== *)

Section AddHooks_lemmas.

Lemma with_Hooks_id (L : log_Logger) : with_Hooks L (Hooks L ++ []) = L.
Proof. destruct L. unfold with_Hooks. simpl. by rewrite app_nil_r. Qed.

Lemma set_loggers_id (w : World) (l : loc) (L : log_Logger) :
  loggers w !! l = Some L →
  set_loggers (λ h, <[l := with_Hooks L (Hooks L ++ [])]> h) w = w.
Proof.
  intros H. rewrite with_Hooks_id. destruct w. unfold set_loggers. simpl in *.
  f_equal. by apply list_insert_id.
Qed.

(** The loop registers the hooks in front of the first value that does not
    satisfy [log.Hook] and returns the error about that value; it
    registers every hook when there is no such value. *)
Lemma AddHooks_range_Done (hooks : list any) :
  ∀ (cl : ContextLogger) (w : World) (L : log_Logger),
    loggers w !! cl_Logger cl = Some L →
    AddHooks_range cl hooks w
    = Done (AddHooks_error <$> first_nonconforming hooks)
           (set_loggers
              (λ h, <[cl_Logger cl := with_Hooks L (Hooks L ++ conforming_prefix hooks)]> h)
              w).
Proof.
  induction hooks as [|v hooks IH]; intros cl w L H.
  - simpl. unfold ret. by rewrite set_loggers_id.
  - destruct v as [|z|s|h|p|p];
      try (simpl; unfold ret; by rewrite set_loggers_id).
    simpl. unfold bind, log_Logger_AddHook, update_logger, bind, load, modify.
    rewrite H.
    rewrite (IH cl _ (with_Hooks L (Hooks L ++ [h]))).
    + f_equal. unfold set_loggers, with_Hooks. simpl.
      by rewrite list_insert_insert_eq, <- app_assoc.
    + simpl. apply list_lookup_insert_eq. by eapply lookup_lt_Some.
Qed.

Lemma ContextLogger_AddHooks_Done
    (cl : ContextLogger) (hooks : list any) (w : World) (L : log_Logger) :
  loggers w !! cl_Logger cl = Some L →
  mutexes w !! cl_mutex cl = Some false →
  ContextLogger_AddHooks cl hooks w
  = Done (AddHooks_error <$> first_nonconforming hooks)
         (set_loggers
            (λ h, <[cl_Logger cl := with_Hooks L (Hooks L ++ conforming_prefix hooks)]> h)
            w).
Proof.
  intros HL Hm.
  unfold ContextLogger_AddHooks, bind, sync_Lock, sync_Unlock, bind, load, modify.
  rewrite Hm.
  rewrite (AddHooks_range_Done hooks cl _ L) by done.
  simpl. rewrite list_lookup_insert_eq by (by eapply lookup_lt_Some).
  unfold ret. f_equal.
  destruct w. unfold set_loggers, set_mutexes. simpl in *.
  f_equal. rewrite list_insert_insert_eq. by apply list_insert_id.
Qed.

Lemma first_nonconforming_split (hooks : list any) (v : any) :
  first_nonconforming hooks = Some v →
  assert_Hook v = (None, false) ∧
  ∃ rest, hooks = map hook_any (conforming_prefix hooks) ++ v :: rest.
Proof.
  induction hooks as [|x hooks IH]; [done|].
  destruct x as [|z|s|h|p|p]; simpl;
    try (intros [= <-]; split; [done|]; by exists hooks).
  intros H. destruct (IH H) as (Hv & rest & Hrest).
  split; [done|]. exists rest. by rewrite <- Hrest.
Qed.

End AddHooks_lemmas.

(** C3, as the code has it.  When the argument list of [AddHooks] holds a
    value that does not satisfy the hook capability, the call returns the
    error about the first such value, with the lock released; the hooks in
    front of that value have been registered, in order, after the hooks
    the logger had, and no value behind it has been looked at. *)
Theorem AddHooks_nonconforming
    (cl : ContextLogger) (hooks : list any) (w : World) (L : log_Logger) (v : any) :
  loggers w !! cl_Logger cl = Some L →
  mutexes w !! cl_mutex cl = Some false →
  first_nonconforming hooks = Some v →
  ∃ w' rest,
    ContextLogger_AddHooks cl hooks w = Done (Some (AddHooks_error v)) w' ∧
    hooks = map hook_any (conforming_prefix hooks) ++ v :: rest ∧
    assert_Hook v = (None, false) ∧
    loggers w' !! cl_Logger cl = Some (with_Hooks L (Hooks L ++ conforming_prefix hooks)) ∧
    mutexes w' = mutexes w.
Proof.
  intros HL Hm Hv.
  destruct (first_nonconforming_split _ _ Hv) as (Ha & rest & Hrest).
  eexists _, rest.
  split; [rewrite (ContextLogger_AddHooks_Done cl hooks w L) by done; by rewrite Hv|].
  split; [exact Hrest|]. split; [exact Ha|].
  split; [|reflexivity].
  simpl. apply list_lookup_insert_eq. by eapply lookup_lt_Some.
Qed.

Lemma AddHooks_nonconforming_witness :
  loggers example_logger_store !! cl_Logger example_logger
  = Some (New_Logger 0 0 log_InfoLevel) ∧
  mutexes example_logger_store !! cl_mutex example_logger = Some false ∧
  first_nonconforming mixed_hooks = Some (string_any "not a hook") ∧
  ∃ w' rest,
    ContextLogger_AddHooks example_logger mixed_hooks example_logger_store
    = Done (Some (AddHooks_error (string_any "not a hook"))) w' ∧
    mixed_hooks = map hook_any (conforming_prefix mixed_hooks)
                  ++ string_any "not a hook" :: rest ∧
    assert_Hook (string_any "not a hook") = (None, false) ∧
    loggers w' !! cl_Logger example_logger
    = Some (with_Hooks (New_Logger 0 0 log_InfoLevel)
              (Hooks (New_Logger 0 0 log_InfoLevel) ++ conforming_prefix mixed_hooks)) ∧
    mutexes w' = mutexes example_logger_store.
Proof.
  split; [reflexivity|]. split; [reflexivity|]. split; [reflexivity|].
  apply (AddHooks_nonconforming example_logger mixed_hooks example_logger_store
           (New_Logger 0 0 log_InfoLevel) (string_any "not a hook"));
    reflexivity.
Defined.

(** C3 as stated fails: [AddHooks(hook1, "not a hook", hook2)] on a new
    logger returns an error, and [hook1] is registered all the same: the
    hook list, empty before the call, holds it afterwards. *)
Lemma AddHooks_partial_registration :
  ∃ err w',
    ContextLogger_AddHooks example_logger mixed_hooks example_logger_store
    = Done (Some err) w' ∧
    Hooks <$> loggers example_logger_store !! cl_Logger example_logger = Some [] ∧
    Hooks <$> loggers w' !! cl_Logger example_logger = Some [hook1] ∧
    Hooks <$> loggers w' !! cl_Logger example_logger
    ≠ Hooks <$> loggers example_logger_store !! cl_Logger example_logger.
Proof.
  eexists _, _. split; [reflexivity|]. by repeat split.
Qed.

(* ===================================================================== *)
(** * The output destination *)
(* ===================================================================== *)

Section Write_lemmas.

(** A write on a file that [New] opened appends the bytes to the file of
    that name and changes nothing else but the offset of the descriptor. *)
Lemma os_File_Write_append (j : loc) (line : string) (w : World) (F : File) :
  files w !! j = Some F → file_closed F = false → file_flag F = New_flag →
  os_File_Write j line w
  = Done None
      (set_files
         (λ h, <[j := {| file_name := file_name F; file_flag := file_flag F;
                         file_perm := file_perm F;
                         file_offset := String.length (default "" (fs w !! file_name F) +:+ line);
                         file_closed := false |}]> h)
         (set_fs (λ m, <[file_name F := default "" (fs w !! file_name F) +:+ line]> m) w)).
Proof.
  intros HF Hc Hfl. unfold os_File_Write, bind, load, get, modify, ret.
  rewrite HF, Hc, Hfl. reflexivity.
Qed.

Lemma ends_with_append (content line : string) :
  ends_with (content +:+ line) line.
Proof. by exists content. Qed.

(** Writing [line] through the files [js], all open for appending: every
    write succeeds, the standard streams and the loggers are untouched,
    the files stay open for appending, and afterwards the file behind each
    of [js], and every file that already ended with [line], ends with
    [line]. *)
Lemma multiWriter_Write_files (js : list loc) (line : string) :
  ∀ w : World,
    (∀ j, j ∈ js → open_for_append w j) →
    ∃ w2,
      multiWriter_Write (map os_File js) line w = Done None w2 ∧
      stdout w2 = stdout w ∧ stderr w2 = stderr w ∧ loggers w2 = loggers w ∧
      (∀ j F, files w !! j = Some F →
              ∃ F', files w2 !! j = Some F' ∧ file_name F' = file_name F) ∧
      (∀ j F, j ∈ js → files w !! j = Some F →
              ∃ content, fs w2 !! file_name F = Some content ∧ ends_with content line) ∧
      (∀ p content, fs w !! p = Some content → ends_with content line →
                    ∃ content', fs w2 !! p = Some content' ∧ ends_with content' line).
Proof.
  induction js as [|j js IH]; intros w Hopen.
  - exists w. simpl. repeat split; try done.
    + intros j F H. by exists F.
    + intros j F Hj. by apply elem_of_nil in Hj.
    + intros p content H1 H2. by exists content.
  - destruct (Hopen j (list_elem_of_here _ _)) as (F & HF & Hc & Hfl).
    simpl. unfold bind. rewrite (os_File_Write_append j line w F) by done.
    set (F1 := {| file_name := file_name F; file_flag := file_flag F;
                  file_perm := file_perm F;
                  file_offset := String.length (default "" (fs w !! file_name F) +:+ line);
                  file_closed := false |}).
    set (w1 := set_files _ _).
    assert (Hfiles : ∀ i G, files w !! i = Some G →
                     ∃ G', files w1 !! i = Some G' ∧ file_name G' = file_name G ∧
                           file_closed G' = file_closed G ∧ file_flag G' = file_flag G).
    { intros i G Hi. simpl. destruct (decide (i = j)) as [->|Hne].
      - exists F1. rewrite list_lookup_insert_eq by (by eapply lookup_lt_Some).
        rewrite HF in Hi. injection Hi as <-. by repeat split.
      - exists G. by rewrite list_lookup_insert_ne. }
    assert (Hfs : ∀ p content, fs w !! p = Some content → ends_with content line →
                  ∃ content', fs w1 !! p = Some content' ∧ ends_with content' line).
    { intros p content Hp He. simpl. destruct (decide (p = file_name F)) as [->|Hne].
      - rewrite lookup_insert_eq. eexists. split; [done|]. apply ends_with_append.
      - rewrite lookup_insert_ne by done. by exists content. }
    destruct (IH w1) as (w2 & Hrun & Ho & He & Hl & Hkeep & Hnew & Hold).
    { intros i Hi. destruct (Hopen i (list_elem_of_further _ _ _ Hi)) as (G & HG & HGc & HGf).
      destruct (Hfiles i G HG) as (G' & HG' & _ & Hc' & Hf').
      exists G'. split; [done|]. split; congruence. }
    exists w2. split; [exact Hrun|].
    split; [by rewrite Ho|]. split; [by rewrite He|]. split; [by rewrite Hl|].
    split; [|split].
    + intros i G Hi. destruct (Hfiles i G Hi) as (G' & HG' & Hn & _).
      destruct (Hkeep i G' HG') as (G'' & HG'' & Hn'). exists G''. split; congruence.
    + intros i G [->|Hi]%elem_of_cons HG.
      * rewrite HF in HG. injection HG as <-.
        apply (Hold (file_name F) (default "" (fs w !! file_name F) +:+ line)).
        -- simpl. by rewrite lookup_insert_eq.
        -- apply ends_with_append.
      * destruct (Hfiles i G HG) as (G' & HG' & Hn & _).
        rewrite <- Hn. by apply (Hnew i G').
    + intros p content Hp Hend.
      destruct (Hfs p content Hp Hend) as (c1 & Hc1 & He1). by apply (Hold p c1).
Qed.

End Write_lemmas.

Lemma New_files_lookup (w w' : World) (outs : list string) (i : nat) (p : string) :
  files w' = files w ++ map New_File outs →
  outs !! i = Some p →
  files w' !! (length (files w) + i)%nat = Some (New_File p).
Proof.
  intros -> Hi. rewrite lookup_app_r by lia.
  replace (length (files w) + i - length (files w))%nat with i by lia.
  by rewrite list_lookup_fmap, Hi.
Qed.

(** C2, as the code has it.  The output destination of a logger that
    [New] returns is the multi-writer over standard output, not standard
    error, followed by one file per output path, opened for appending, in
    order.  An emission at an enabled level is appended to standard output
    and to every one of these files; standard error receives nothing. *)
Theorem New_writes_to_stdout
    (b : chan) (level : string) (outs : list string) (w w' : World)
    (cl : ContextLogger) (err : option error) (lv : log_Level) (line : string) :
  New b level outs w = Done (Some cl, err) w' →
  ∃ L,
    loggers w' !! cl_Logger cl = Some L ∧
    Out L = multiWriter (os_Stdout :: map os_File (seq (length (files w)) (length outs))) ∧
    (os_Stderr ∉ os_Stdout :: map os_File (seq (length (files w)) (length outs))) ∧
    files w' = files w ++ map New_File outs ∧
    (log_Logger_IsLevelEnabled L lv = true →
     ∃ w2,
       ContextLogger_emit cl lv line w' = Done tt w2 ∧
       stdout w2 = stdout w' +:+ line ∧
       stderr w2 = stderr w' ∧
       ∀ p, p ∈ outs → ∃ content, fs w2 !! p = Some content ∧ ends_with content line).
Proof.
  intros H.
  destruct (New_success_inv _ _ _ _ _ _ _ H)
    as (ch & lvl & -> & -> & _ & _ & -> & Hl & _ & Hf & _).
  exists (New_Logger (length (files w)) (length outs) lvl). simpl.
  split; [rewrite Hl; apply lookup_snoc_new|].
  split; [reflexivity|].
  split.
  { intros [?|(j & ? & _)%list_elem_of_fmap]%elem_of_cons; discriminate. }
  split; [exact Hf|].
  intros Hen.
  unfold ContextLogger_emit, log_Logger_emit, bind, load. simpl.
  rewrite Hl, lookup_snoc_new, Hen. simpl.
  unfold bind, modify. simpl.
  set (w1 := set_stdout _ w').
  destruct (multiWriter_Write_files (seq (length (files w)) (length outs)) line w1)
    as (w2 & Hrun & Ho & He & _ & _ & Hnew & _).
  { intros j [Hj1 Hj2]%elem_of_seq.
    destruct (lookup_lt_is_Some_2 outs (j - length (files w))%nat) as [p Hp]; [lia|].
    exists (New_File p). split; [|done].
    replace j with (length (files w) + (j - length (files w)))%nat by lia.
    by apply (New_files_lookup w w' outs). }
  rewrite Hrun. exists w2. split; [reflexivity|].
  split; [by rewrite Ho|]. split; [by rewrite He|].
  intros p [i Hi]%list_elem_of_lookup.
  apply (Hnew (length (files w) + i)%nat (New_File p)).
  - apply elem_of_seq. apply lookup_lt_Some in Hi. lia.
  - by apply (New_files_lookup w w' outs).
Qed.

(** The call [New(ch, "info", "a.log", "b.log")] in the empty store and an
    emission through the logger it returns: the record reaches standard
    output and both files, and standard error stays empty. *)
Lemma New_writes_to_stdout_witness :
  New (Some 0%nat) "info" ["a.log"; "b.log"] empty_world
  = Done (Some example_logger, None)
         (store_after (New (Some 0%nat) "info" ["a.log"; "b.log"]) empty_world) ∧
  ∃ L,
    loggers (store_after (New (Some 0%nat) "info" ["a.log"; "b.log"]) empty_world)
    !! cl_Logger example_logger = Some L ∧
    Out L = multiWriter (os_Stdout :: map os_File (seq (length (files empty_world)) 2)) ∧
    (os_Stderr ∉ os_Stdout :: map os_File (seq (length (files empty_world)) 2)) ∧
    files (store_after (New (Some 0%nat) "info" ["a.log"; "b.log"]) empty_world)
    = files empty_world ++ map New_File ["a.log"; "b.log"] ∧
    (log_Logger_IsLevelEnabled L log_InfoLevel = true →
     ∃ w2,
       ContextLogger_emit example_logger log_InfoLevel "record"
         (store_after (New (Some 0%nat) "info" ["a.log"; "b.log"]) empty_world)
       = Done tt w2 ∧
       stdout w2
       = stdout (store_after (New (Some 0%nat) "info" ["a.log"; "b.log"]) empty_world)
         +:+ "record" ∧
       stderr w2
       = stderr (store_after (New (Some 0%nat) "info" ["a.log"; "b.log"]) empty_world) ∧
       ∀ p, p ∈ ["a.log"; "b.log"] →
            ∃ content, fs w2 !! p = Some content ∧ ends_with content "record").
Proof.
  split; [vm_compute; reflexivity|].
  apply (New_writes_to_stdout (Some 0%nat) "info" ["a.log"; "b.log"] empty_world
           (store_after (New (Some 0%nat) "info" ["a.log"; "b.log"]) empty_world)
           example_logger None log_InfoLevel "record").
  vm_compute; reflexivity.
Defined.

(** The same call, evaluated: what the two streams and the files hold
    after one emission. *)
Example New_emit_example :
  let w1 := store_after (New (Some 0%nat) "info" ["a.log"; "b.log"]) empty_world in
  let w2 := store_after (ContextLogger_emit example_logger log_InfoLevel "record") w1 in
  New (Some 0%nat) "info" ["a.log"; "b.log"] empty_world
  = Done (Some example_logger, None) w1 ∧
  ContextLogger_emit example_logger log_InfoLevel "record" w1 = Done tt w2 ∧
  stdout w2 = "record" ∧ stderr w2 = "" ∧
  fs w2 !! "a.log" = Some "record" ∧ fs w2 !! "b.log" = Some "record".
Proof. vm_compute. repeat split; reflexivity. Qed.

(* ===================================================================== *)
(** * Further properties: contexts *)
(* ===================================================================== *)

Lemma Context_Value_with_others (ctx : Context) (others : list (nat * any)) :
  Context_Value (with_others ctx others) ctxValue = Context_Value ctx ctxValue.
Proof.
  revert ctx. induction others as [|[n v] others IH]; intros ctx; [done|].
  unfold with_others in *. simpl. by rewrite IH.
Qed.

(** [NewContext] of an entry, then [FromContext]: whatever the context
    held before (an earlier entry included), whatever other packages bind
    on top under their own keys, and whichever entry or logger is the
    receiver of [FromContext], the entry just stored comes back, and the
    store is not touched. *)
Theorem entry_NewContext_round_trip
    (e e0 : entry) (cl : ContextLogger) (ctx : Context)
    (others : list (nat * any)) (w : World) :
  ∃ ctx',
    entry_NewContext e ctx w = Done ctx' w ∧
    entry_FromContext e0 (with_others ctx' others) = Some e ∧
    ContextLogger_FromContext cl (with_others ctx' others) = Some e.
Proof.
  eexists. split; [reflexivity|].
  unfold entry_FromContext, ContextLogger_FromContext.
  rewrite Context_Value_with_others. by split.
Qed.

Lemma never_NewContext_with_others (others : list (nat * any)) :
  never_NewContext (with_others Background others).
Proof.
  unfold with_others. generalize Background, never_Background.
  induction others as [|[n v] others IH]; intros ctx H; [done|].
  simpl. apply IH. by constructor.
Qed.

(** The witness of [FromContext_never_NewContext]: a context that only
    carries the binding of another package. *)
Lemma FromContext_never_NewContext_witness :
  never_NewContext (WithValue Background (other_key 7) (string_any "span")) ∧
  entry_FromContext example_entry
    (WithValue Background (other_key 7) (string_any "span")) = None ∧
  ContextLogger_FromContext example_logger
    (WithValue Background (other_key 7) (string_any "span")) = None.
Proof.
  split; [repeat constructor|].
  apply (FromContext_never_NewContext
           (WithValue Background (other_key 7) (string_any "span"))).
  repeat constructor.
Defined.

(* ===================================================================== *)
(** * Further properties: entries and their fields *)
(* ===================================================================== *)

Lemma accumulated_union (vs : list Values) :
  ∀ d : gmap string any, accumulated d vs = accumulated ∅ vs ∪ d.
Proof.
  unfold accumulated. induction vs as [|v vs IH]; intros d; simpl.
  - by rewrite (left_id_L ∅ (∪)).
  - rewrite (IH (v ∪ d)), (IH (v ∪ ∅)).
    by rewrite (right_id_L ∅ (∪)), (assoc_L (∪)).
Qed.

Lemma entry_WithValues_chain_inv (vs : list Values) :
  ∀ (e : entry) (d : gmap string any) (w : World),
    maps w !! Data (e_Entry e) = Some d →
    ∃ e' w',
      entry_WithValues_chain e vs w = Done e' w' ∧
      Logger (e_Entry e') = Logger (e_Entry e) ∧
      e_breaker e' = e_breaker e ∧
      maps w' !! Data (e_Entry e') = Some (accumulated d vs).
Proof.
  induction vs as [|v vs IH]; intros e d w H.
  - exists e, w. by repeat split.
  - simpl. unfold bind. rewrite (entry_WithValues_Done _ _ d) by done.
    destruct (IH {| e_Entry := {| Logger := Logger (e_Entry e); Data := length (maps w) |};
                    e_breaker := e_breaker e |}
                 (v ∪ d) (set_maps (λ h, h ++ [v ∪ d]) w))
      as (e' & w' & Hrun & HL & Hb & Hf).
    { apply lookup_snoc_new. }
    by exists e', w'.
Qed.

(** Every entry derived from a logger, by [WithValues] on the logger and
    any further [WithValues] on the entries, carries the logger's shutdown
    channel and the logger itself; an emission through such an entry is
    the emission through the logger, in every store. *)
Theorem derived_entry_shares_logger
    (cl : ContextLogger) (v : Values) (vs : list Values) (w : World) :
  ∃ e1 w1 e w',
    ContextLogger_WithValues cl v w = Done e1 w1 ∧
    entry_WithValues_chain e1 vs w1 = Done e w' ∧
    e_breaker e = cl_breaker cl ∧
    Logger (e_Entry e) = cl_Logger cl ∧
    ∀ lv line w2, entry_emit e lv line w2 = ContextLogger_emit cl lv line w2.
Proof.
  destruct (entry_WithValues_chain_inv vs
              {| e_Entry := {| Logger := cl_Logger cl; Data := S (length (maps w)) |};
                 e_breaker := cl_breaker cl |}
              v (set_maps (λ h, (h ++ [∅]) ++ [v]) w))
    as (e & w' & Hrun & HL & Hb & _).
  { apply lookup_snoc2_new. }
  eexists _, _, e, w'.
  split; [apply ContextLogger_WithValues_Done|].
  split; [exact Hrun|]. split; [exact Hb|]. split; [exact HL|].
  intros lv line w2. unfold entry_emit, ContextLogger_emit. by rewrite HL.
Qed.

(** A chain of [WithValues] calls on an entry yields the field mapping of
    the single call with the merged values (later values over earlier
    ones), over the fields of the entry; with no values at all the single
    call still returns a copy of the entry's fields. *)
Theorem entry_WithValues_chain_merged
    (e : entry) (vs : list Values) (d : gmap string any) (w : World) :
  maps w !! Data (e_Entry e) = Some d →
  ∃ e1 w1 e2 w2,
    entry_WithValues_chain e vs w = Done e1 w1 ∧
    entry_WithValues e (accumulated ∅ vs) w = Done e2 w2 ∧
    fields_of e1 w1 = Some (accumulated ∅ vs ∪ d) ∧
    fields_of e2 w2 = Some (accumulated ∅ vs ∪ d) ∧
    Data (e_Entry e2) ≠ Data (e_Entry e).
Proof.
  intros H.
  destruct (entry_WithValues_chain_inv vs e d w H) as (e1 & w1 & Hrun & _ & _ & Hf).
  eexists e1, w1, _, _.
  split; [exact Hrun|].
  split; [by apply (entry_WithValues_Done _ _ d)|].
  split; [unfold fields_of; simpl; by rewrite Hf, accumulated_union|].
  split; [apply lookup_snoc_new|].
  simpl. apply lookup_lt_Some in H. lia.
Qed.

Lemma entry_WithValues_chain_merged_witness :
  maps example_store !! Data (e_Entry example_entry) = Some ∅ ∧
  ∃ e1 w1 e2 w2,
    entry_WithValues_chain example_entry [values_a1; values_b2] example_store
    = Done e1 w1 ∧
    entry_WithValues example_entry (accumulated ∅ [values_a1; values_b2]) example_store
    = Done e2 w2 ∧
    fields_of e1 w1 = Some (accumulated ∅ [values_a1; values_b2] ∪ ∅) ∧
    fields_of e2 w2 = Some (accumulated ∅ [values_a1; values_b2] ∪ ∅) ∧
    Data (e_Entry e2) ≠ Data (e_Entry example_entry).
Proof.
  split; [reflexivity|].
  apply (entry_WithValues_chain_merged example_entry [values_a1; values_b2] ∅ example_store).
  reflexivity.
Defined.

(** [GetValues] of an entry returns the entry's own map object, not a
    copy: after a caller writes [x] under [k] through the returned map,
    the entry yields its fields with [k] set to [x], and so does, under
    its own values, an entry derived from it afterwards; an entry derived
    before the write keeps the fields it was given. *)
Theorem entry_GetValues_alias
    (e : entry) (v d : gmap string any) (k : string) (x : any) (w : World) :
  maps w !! Data (e_Entry e) = Some d →
  ∃ e1 w1 r w2 e2 w3,
    entry_WithValues e v w = Done e1 w1 ∧
    entry_GetValues e w1 = Done r w1 ∧
    map_assign r k x w1 = Done tt w2 ∧
    fields_of e w2 = Some (<[k := x]> d) ∧
    fields_of e1 w2 = Some (v ∪ d) ∧
    entry_WithValues e v w2 = Done e2 w3 ∧
    fields_of e2 w3 = Some (v ∪ <[k := x]> d).
Proof.
  intros H. pose proof (lookup_lt_Some _ _ _ H) as Hlt.
  assert (H1 : maps (set_maps (λ h, h ++ [v ∪ d]) w) !! Data (e_Entry e) = Some d)
    by (by eapply lookup_snoc_old).
  assert (H2 : maps (set_maps (λ h, <[Data (e_Entry e) := <[k := x]> d]> h)
                       (set_maps (λ h, h ++ [v ∪ d]) w))
               !! Data (e_Entry e) = Some (<[k := x]> d)).
  { simpl. apply list_lookup_insert_eq. rewrite length_app. simpl. lia. }
  eexists _, _, _, _, _, _.
  split; [by apply (entry_WithValues_Done _ _ d)|].
  split; [reflexivity|].
  split; [unfold map_assign, bind, load, modify; by rewrite H1|].
  split; [exact H2|].
  split.
  { unfold fields_of. simpl. rewrite list_lookup_insert_ne by lia.
    apply lookup_snoc_new. }
  split; [by apply (entry_WithValues_Done _ _ (<[k := x]> d))|].
  apply lookup_snoc_new.
Qed.

Lemma entry_GetValues_alias_witness :
  maps example_store !! Data (e_Entry example_entry) = Some ∅ ∧
  ∃ e1 w1 r w2 e2 w3,
    entry_WithValues example_entry values_a1 example_store = Done e1 w1 ∧
    entry_GetValues example_entry w1 = Done r w1 ∧
    map_assign r "b" (int_any 2) w1 = Done tt w2 ∧
    fields_of example_entry w2 = Some (<["b" := int_any 2]> ∅) ∧
    fields_of e1 w2 = Some (values_a1 ∪ ∅) ∧
    entry_WithValues example_entry values_a1 w2 = Done e2 w3 ∧
    fields_of e2 w3 = Some (values_a1 ∪ <["b" := int_any 2]> ∅).
Proof.
  split; [reflexivity|].
  apply (entry_GetValues_alias example_entry values_a1 ∅ "b" (int_any 2) example_store).
  reflexivity.
Defined.

(** [GetValues] of the root logger returns a new map object at every
    call: what a caller writes into one returned map shows neither in the
    map of a later call, which is empty again, nor anywhere else. *)
Theorem ContextLogger_GetValues_fresh
    (cl : ContextLogger) (k : string) (x : any) (w : World) :
  ∃ r1 w1 w2 r2 w3,
    ContextLogger_GetValues cl w = Done r1 w1 ∧
    map_assign r1 k x w1 = Done tt w2 ∧
    ContextLogger_GetValues cl w2 = Done r2 w3 ∧
    r2 ≠ r1 ∧
    maps w3 !! r2 = Some ∅ ∧
    maps w3 !! r1 = Some {[ k := x ]} ∧
    take (length (maps w)) (maps w3) = maps w.
Proof.
  eexists _, _, _, _, _.
  split; [reflexivity|].
  split.
  { unfold map_assign, bind, load, modify. simpl. by rewrite lookup_snoc_new. }
  split; [reflexivity|]. simpl.
  rewrite insert_snoc_new, !length_app. simpl.
  split; [lia|].
  split.
  { replace (length (maps w) + 1)%nat with (length (maps w ++ [<[k:=x]> ∅])).
    - apply lookup_snoc_new.
    - rewrite length_app. simpl. lia. }
  split.
  { eapply lookup_snoc_old. rewrite lookup_snoc_new. by rewrite insert_empty. }
  rewrite <- app_assoc. by rewrite take_app_length.
Qed.

(* ===================================================================== *)
(** * Further properties: hook registration *)
(* ===================================================================== *)

Lemma conforming_prefix_app (hs : list log_Hook) (hooks : list any) :
  conforming_prefix (map hook_any hs ++ hooks) = hs ++ conforming_prefix hooks.
Proof. induction hs as [|h hs IH]; simpl; [done|]. by rewrite IH. Qed.

Lemma first_nonconforming_app (hs : list log_Hook) (hooks : list any) :
  first_nonconforming (map hook_any hs ++ hooks) = first_nonconforming hooks.
Proof. induction hs as [|h hs IH]; simpl; done. Qed.

Lemma conforming_prefix_map (hs : list log_Hook) :
  conforming_prefix (map hook_any hs) = hs.
Proof. induction hs as [|h hs IH]; simpl; [done|]. by rewrite IH. Qed.

Lemma first_nonconforming_map (hs : list log_Hook) :
  first_nonconforming (map hook_any hs) = None.
Proof. induction hs as [|h hs IH]; simpl; done. Qed.

(** [AddHooks] with hooks only: the call returns nil with the lock
    released; the logger has its former hooks followed by the new ones in
    the order given, and its output, formatter and level as before; no
    other logger and nothing else in the store is changed. *)
Theorem AddHooks_conforming
    (cl : ContextLogger) (hs : list log_Hook) (w : World) (L : log_Logger) :
  loggers w !! cl_Logger cl = Some L →
  mutexes w !! cl_mutex cl = Some false →
  ∃ w',
    ContextLogger_AddHooks cl (map hook_any hs) w = Done None w' ∧
    loggers w' !! cl_Logger cl
    = Some {| Out := Out L; Hooks := Hooks L ++ hs; Formatter := Formatter L;
              ReportCaller := ReportCaller L; Level := Level L |} ∧
    (∀ l, l ≠ cl_Logger cl → loggers w' !! l = loggers w !! l) ∧
    mutexes w' = mutexes w ∧ maps w' = maps w ∧ files w' = files w ∧
    fs w' = fs w ∧ stdout w' = stdout w ∧ stderr w' = stderr w.
Proof.
  intros HL Hm. eexists.
  split.
  { rewrite (ContextLogger_AddHooks_Done cl _ w L) by done.
    by rewrite first_nonconforming_map, conforming_prefix_map. }
  simpl. split; [apply list_lookup_insert_eq; by eapply lookup_lt_Some|].
  split; [|done].
  intros l Hl. by apply list_lookup_insert_ne.
Qed.

Lemma AddHooks_conforming_witness :
  loggers example_logger_store !! cl_Logger example_logger
  = Some (New_Logger 0 0 log_InfoLevel) ∧
  mutexes example_logger_store !! cl_mutex example_logger = Some false ∧
  ∃ w',
    ContextLogger_AddHooks example_logger (map hook_any [hook1; hook2])
      example_logger_store = Done None w' ∧
    loggers w' !! cl_Logger example_logger
    = Some {| Out := Out (New_Logger 0 0 log_InfoLevel);
              Hooks := Hooks (New_Logger 0 0 log_InfoLevel) ++ [hook1; hook2];
              Formatter := Formatter (New_Logger 0 0 log_InfoLevel);
              ReportCaller := ReportCaller (New_Logger 0 0 log_InfoLevel);
              Level := Level (New_Logger 0 0 log_InfoLevel) |} ∧
    (∀ l, l ≠ cl_Logger example_logger →
          loggers w' !! l = loggers example_logger_store !! l) ∧
    mutexes w' = mutexes example_logger_store ∧
    maps w' = maps example_logger_store ∧ files w' = files example_logger_store ∧
    fs w' = fs example_logger_store ∧ stdout w' = stdout example_logger_store ∧
    stderr w' = stderr example_logger_store.
Proof.
  split; [reflexivity|]. split; [reflexivity|].
  apply (AddHooks_conforming example_logger [hook1; hook2] example_logger_store
           (New_Logger 0 0 log_InfoLevel)); reflexivity.
Defined.

(** A call of [AddHooks] whose first arguments are hooks is the call with
    those hooks followed by the call with the remaining arguments: same
    result, same store.  In particular registering in two calls or in one
    gives the same hook list. *)
Theorem AddHooks_split
    (cl : ContextLogger) (hs1 : list log_Hook) (hooks2 : list any)
    (w : World) (L : log_Logger) :
  loggers w !! cl_Logger cl = Some L →
  mutexes w !! cl_mutex cl = Some false →
  ContextLogger_AddHooks cl (map hook_any hs1 ++ hooks2) w
  = AddHooks_twice cl (map hook_any hs1) hooks2 w.
Proof.
  intros HL Hm. unfold AddHooks_twice, bind.
  rewrite (ContextLogger_AddHooks_Done cl (map hook_any hs1 ++ hooks2) w L) by done.
  rewrite (ContextLogger_AddHooks_Done cl (map hook_any hs1) w L) by done.
  rewrite first_nonconforming_app, conforming_prefix_app.
  rewrite first_nonconforming_map, conforming_prefix_map. simpl.
  rewrite (ContextLogger_AddHooks_Done cl hooks2 _ (with_Hooks L (Hooks L ++ hs1))).
  - f_equal. unfold set_loggers, with_Hooks. simpl.
    by rewrite list_insert_insert_eq, <- app_assoc.
  - simpl. apply list_lookup_insert_eq. by eapply lookup_lt_Some.
  - done.
Qed.

Lemma AddHooks_split_witness :
  loggers example_logger_store !! cl_Logger example_logger
  = Some (New_Logger 0 0 log_InfoLevel) ∧
  mutexes example_logger_store !! cl_mutex example_logger = Some false ∧
  ContextLogger_AddHooks example_logger
    (map hook_any [hook1] ++ [string_any "not a hook"; hook_any hook2])
    example_logger_store
  = AddHooks_twice example_logger (map hook_any [hook1])
      [string_any "not a hook"; hook_any hook2] example_logger_store.
Proof.
  split; [reflexivity|]. split; [reflexivity|].
  apply (AddHooks_split example_logger [hook1]
           [string_any "not a hook"; hook_any hook2] example_logger_store
           (New_Logger 0 0 log_InfoLevel)); reflexivity.
Defined.

(* ===================================================================== *)
(** * Further properties: the constructor *)
(* ===================================================================== *)

Lemma foldl_opened_fs (ps : list string) :
  ∀ w, fs (foldl opened w ps) = created (fs w) ps.
Proof.
  unfold created. induction ps as [|p ps IH]; intros w; simpl; [done|].
  rewrite IH. f_equal. unfold opened. by destruct (bool_decide (fs w !! p = None)).
Qed.

Lemma created_lookup (ps : list string) :
  ∀ (m : gmap string string) (p : string),
    created m ps !! p
    = match m !! p with
      | Some c => Some c
      | None => if bool_decide (p ∈ ps) then Some "" else None
      end.
Proof.
  unfold created. induction ps as [|q ps IH]; intros m p; cbn [foldl].
  - destruct (m !! p); [done|]. by rewrite bool_decide_eq_false_2 by apply not_elem_of_nil.
  - rewrite IH. destruct (decide (p = q)) as [->|Hne].
    + destruct (m !! q) as [c|] eqn:Hq.
      * rewrite bool_decide_eq_false_2 by congruence. by rewrite Hq.
      * rewrite bool_decide_eq_true_2 by done. rewrite lookup_insert_eq.
        by rewrite bool_decide_eq_true_2 by apply list_elem_of_here.
    + assert (Hp : (if bool_decide (m !! q = None) then <[q:=""]> m else m) !! p = m !! p).
      { destruct (bool_decide (m !! q = None)); [|done]. by rewrite lookup_insert_ne. }
      rewrite Hp. destruct (m !! p); [done|].
      destruct (decide (p ∈ ps)) as [Hin|Hnin].
      * rewrite !bool_decide_eq_true_2; [done| |done]. by apply list_elem_of_further.
      * rewrite !bool_decide_eq_false_2; [done| |done].
        intros [?|?]%elem_of_cons; done.
Qed.

(** The file system after a call of [New] with a channel. *)
Lemma New_Some_fs (ch : nat) (level : string) (outs : list string) (w : World) :
  ∃ r w',
    New (Some ch) level outs w = Done r w' ∧
    fs w' = created (fs w) (opened_prefix w outs).
Proof.
  unfold New, bind, log_New, new_logger, log_Logger_SetFormatter, update_logger,
    bind, load, modify. simpl.
  rewrite lookup_snoc_new.
  set (W1 := set_loggers _ (set_loggers _ w)).
  assert (HW1 : loggers W1
                = loggers w ++ [ {| Out := fileWriter os_Stderr; Hooks := [];
                                    Formatter := New_Formatter; ReportCaller := false;
                                    Level := log_InfoLevel |} ])
    by apply insert_snoc_new.
  rewrite New_range_Done.
  rewrite (first_refused_ext w W1), (opened_prefix_ext w W1) by done.
  set (w1 := foldl opened W1 _).
  pose proof (foldl_opened_fs (opened_prefix w outs) W1) as Hfs.
  change (fs W1) with (fs w) in Hfs. fold w1 in Hfs.
  destruct (foldl_opened_rest (opened_prefix w outs) W1) as (_ & Hl & _).
  fold w1 in Hl. rewrite HW1 in Hl.
  clearbody w1. clear HW1. clearbody W1.
  destruct (first_refused w outs) as [[p errno]|] eqn:Hfr.
  - by eexists _, _.
  - unfold log_Logger_SetOut, log_Logger_SetReportCaller, log_Logger_SetLevel,
      update_logger, bind, load, modify. simpl.
    repeat (progress (rewrite ?Hl, ?lookup_snoc_new, ?insert_snoc_new; simpl)).
    destruct (log_ParseLevel level) as [lvl|perr].
    + repeat (progress (rewrite ?Hl, ?lookup_snoc_new, ?insert_snoc_new; simpl)).
      unfold new_mutex, ret. simpl. by eexists _, _.
    + by eexists _, _.
Qed.

(** [New] returns either a logger and no error or an error and no
    logger, never both and never neither.  It returns a logger exactly
    when the channel is not nil, no output path is refused and the level
    string, lower-cased as Go does, is one of the level names of the
    parser (panic, fatal, error, warn, warning, info, debug, trace). *)
Theorem New_logger_or_error
    (b : chan) (level : string) (outs : list string) (w : World) :
  ∃ r w',
    New b level outs w = Done r w' ∧
    ((∃ cl,
        r = (Some cl, None) ∧ b ≠ None ∧ first_refused w outs = None ∧
        in_names parser_level_names level = true) ∨
     (∃ err,
        r = (None, Some err) ∧
        (b = None ∨ (∃ p errno, first_refused w outs = Some (p, errno)) ∨
         in_names parser_level_names level = false))).
Proof.
  destruct b as [ch|].
  - destruct (New_Some ch level outs w) as (r & w' & Hrun & _ & _ & _ & _ & _ & Hr).
    exists r, w'. split; [exact Hrun|].
    destruct (first_refused w outs) as [[p errno]|] eqn:Hfr.
    + right. subst r. eexists. split; [reflexivity|].
      right. left. by exists p, errno.
    + destruct (log_ParseLevel level) as [lvl|perr] eqn:Hp.
      * left. destruct Hr as (-> & _). eexists. repeat split; [done|].
        by eapply log_ParseLevel_inl.
      * right. subst r. eexists. split; [reflexivity|].
        right. right. by eapply log_ParseLevel_inr.
  - eexists _, _. split; [reflexivity|]. right.
    eexists. split; [reflexivity|]. by left.
Qed.

(** When an output path is refused, [New] fails with the error that names
    the first refused path and the system's error for it, whatever the
    level string is; the paths in front of it have been opened, the paths
    behind it have not been tried. *)
Theorem New_refused_path
    (ch : nat) (level : string) (outs : list string) (w : World) (p errno : string) :
  first_refused w outs = Some (p, errno) →
  ∃ err msg w' rest,
    New (Some ch) level outs w = Done (None, Some err) w' ∧
    Error err = Some msg ∧
    msg = "error open file path '" +:+ p +:+ "': open " +:+ p +:+ ": " +:+ errno ∧
    mentions msg p ∧
    outs = opened_prefix w outs ++ p :: rest ∧
    files w' = files w ++ map New_File (opened_prefix w outs) ∧
    fs w' = created (fs w) (opened_prefix w outs).
Proof.
  intros Hfr.
  destruct (New_Some ch level outs w) as (r & w' & Hrun & Hf & _ & _ & _ & _ & Hr).
  destruct (New_Some_fs ch level outs w) as (r' & w'' & Hrun' & Hfs).
  rewrite Hrun in Hrun'. injection Hrun' as <- <-.
  rewrite Hfr in Hr. subst r.
  destruct (first_refused_Some_split _ _ _ _ Hfr) as (_ & rest & Hrest).
  eexists _, _, w', rest. split; [exact Hrun|].
  split; [reflexivity|].
  split; [by rewrite !append_assoc|].
  split; [|done].
  exists "error open file path '", ("': open " +:+ p +:+ ": " +:+ errno).
  by rewrite !append_assoc.
Qed.

Lemma New_refused_path_witness :
  first_refused refusing_store ["a.log"; "/root/b.log"; "c.log"]
  = Some ("/root/b.log", "permission denied") ∧
  ∃ err msg w' rest,
    New (Some 0%nat) "verbose" ["a.log"; "/root/b.log"; "c.log"] refusing_store
    = Done (None, Some err) w' ∧
    Error err = Some msg ∧
    msg = "error open file path '" +:+ "/root/b.log" +:+ "': open " +:+ "/root/b.log"
          +:+ ": " +:+ "permission denied" ∧
    mentions msg "/root/b.log" ∧
    ["a.log"; "/root/b.log"; "c.log"]
    = opened_prefix refusing_store ["a.log"; "/root/b.log"; "c.log"]
      ++ "/root/b.log" :: rest ∧
    files w'
    = files refusing_store
      ++ map New_File (opened_prefix refusing_store ["a.log"; "/root/b.log"; "c.log"]) ∧
    fs w'
    = created (fs refusing_store)
        (opened_prefix refusing_store ["a.log"; "/root/b.log"; "c.log"]).
Proof.
  split; [reflexivity|].
  apply (New_refused_path 0%nat "verbose" ["a.log"; "/root/b.log"; "c.log"]
           refusing_store "/root/b.log" "permission denied").
  reflexivity.
Defined.

(** [New] never truncates or changes a file that exists: after the call,
    successful or not, every existing file has the content it had, the
    output files that were missing and were opened exist and are empty,
    and no other file has appeared. *)
Theorem New_keeps_file_contents
    (b : chan) (level : string) (outs : list string) (w : World) (p : string) :
  ∃ r w',
    New b level outs w = Done r w' ∧
    fs w' !! p
    = match fs w !! p with
      | Some content => Some content
      | None =>
        if bool_decide (b ≠ None ∧ p ∈ opened_prefix w outs) then Some "" else None
      end.
Proof.
  destruct b as [ch|].
  - destruct (New_Some_fs ch level outs w) as (r & w' & Hrun & Hfs).
    exists r, w'. split; [exact Hrun|].
    rewrite Hfs, created_lookup. destruct (fs w !! p); [done|].
    destruct (decide (p ∈ opened_prefix w outs)).
    + by rewrite !bool_decide_eq_true_2.
    + rewrite !bool_decide_eq_false_2; [done| |done]. by intros [_ ?].
  - eexists _, _. split; [reflexivity|]. destruct (fs w !! p); [done|].
    rewrite bool_decide_eq_false_2; [done|]. by intros [? _].
Qed.

(* ===================================================================== *)
(** * Further properties: emissions *)
(* ===================================================================== *)

Section emission_lemmas.

(** A successful [New] leaves the logger wired. *)
Lemma New_wired (b : chan) (level : string) (outs : list string) (w w' : World)
    (cl : ContextLogger) (err : option error) (lvl : log_Level) :
  New b level outs w = Done (Some cl, err) w' →
  log_ParseLevel level = inl lvl →
  wired w' cl (length (files w)) outs lvl ∧
  stdout w' = stdout w ∧ stderr w' = stderr w ∧ fs w' = created (fs w) outs.
Proof.
  intros H Hp.
  destruct (New_success_inv _ _ _ _ _ _ _ H)
    as (ch & lvl' & -> & -> & Hfr & Hp' & -> & Hl & _ & Hf & _ & Ho & He).
  rewrite Hp in Hp'. injection Hp' as <-.
  destruct (New_Some_fs ch level outs w) as (r & w'' & Hrun & Hfs).
  rewrite H in Hrun. injection Hrun as <- <-.
  rewrite (first_refused_None_prefix _ _ Hfr) in Hfs.
  split; [|done]. split.
  - exists (New_Logger (length (files w)) (length outs) lvl). simpl.
    split; [rewrite Hl; apply lookup_snoc_new|done].
  - intros i p Hi. exists (New_File p).
    split; [by apply (New_files_lookup w w' outs)|done].
Qed.

End emission_lemmas.

(** The level string of [New] is a threshold: an emission, by one of the
    methods that return, at a level that is less severe than the parsed
    level writes nothing; the store is left as it is. *)
Theorem New_level_threshold
    (b : chan) (level : string) (outs : list string) (w w' : World)
    (cl : ContextLogger) (err : option error) (lvl lv : log_Level) (line : string) :
  New b level outs w = Done (Some cl, err) w' →
  log_ParseLevel level = inl lvl →
  returning_level lv →
  (log_Level_num lvl < log_Level_num lv)%Z →
  ContextLogger_emit cl lv line w' = Done tt w'.
Proof.
  intros H Hp _ Hlt.
  destruct (New_wired _ _ _ _ _ _ _ _ H Hp) as ([(L & HL & _ & HLvl) _] & _).
  unfold ContextLogger_emit, log_Logger_emit, bind, load.
  rewrite HL. unfold log_Logger_IsLevelEnabled. rewrite HLvl.
  replace (log_Level_num lv <=? log_Level_num lvl)%Z with false; [done|].
  symmetry. apply Z.leb_gt. lia.
Qed.

Lemma New_level_threshold_witness :
  New (Some 0%nat) "error" ["a.log"] empty_world
  = Done (Some example_logger, None)
         (store_after (New (Some 0%nat) "error" ["a.log"]) empty_world) ∧
  log_ParseLevel "error" = inl log_ErrorLevel ∧
  returning_level log_InfoLevel ∧
  (log_Level_num log_ErrorLevel < log_Level_num log_InfoLevel)%Z ∧
  ContextLogger_emit example_logger log_InfoLevel "record"
    (store_after (New (Some 0%nat) "error" ["a.log"]) empty_world)
  = Done tt (store_after (New (Some 0%nat) "error" ["a.log"]) empty_world).
Proof.
  split; [vm_compute; reflexivity|]. split; [reflexivity|].
  split; [reflexivity|]. split; [reflexivity|].
  apply (New_level_threshold (Some 0%nat) "error" ["a.log"] empty_world
           (store_after (New (Some 0%nat) "error" ["a.log"]) empty_world)
           example_logger None log_ErrorLevel log_InfoLevel "record").
  - vm_compute; reflexivity.
  - reflexivity.
  - reflexivity.
  - reflexivity.
Defined.

(* ===================================================================== *)
(** * Further properties: what no call of the package does *)
(* ===================================================================== *)

Section frame_lemmas.

Lemma with_Hooks_with_Hooks (L : log_Logger) (hs1 hs2 : list log_Hook) :
  with_Hooks (with_Hooks L (Hooks L ++ hs1)) (Hooks (with_Hooks L (Hooks L ++ hs1)) ++ hs2)
  = with_Hooks L (Hooks L ++ hs1 ++ hs2).
Proof. unfold with_Hooks. simpl. by rewrite <- app_assoc. Qed.

Lemma frame_refl (w : World) : frame w w.
Proof.
  repeat split; try done.
  - intros j F H. by exists F.
  - intros l L H. exists []. by rewrite with_Hooks_id.
Qed.

Lemma frame_trans (w1 w2 w3 : World) : frame w1 w2 → frame w2 w3 → frame w1 w3.
Proof.
  intros (Hf1 & Hm1 & Hl1 & Hx1 & Hu1) (Hf2 & Hm2 & Hl2 & Hx2 & Hu2).
  repeat split.
  - intros j F H. destruct (Hf1 j F H) as (F' & H' & ? & ? & ? & ?).
    destruct (Hf2 j F' H') as (F'' & H'' & ? & ? & ? & ?).
    exists F''. repeat split; congruence.
  - intros l m H. by apply Hm2, Hm1.
  - intros l L H. destruct (Hl1 l L H) as (hs1 & H').
    destruct (Hl2 l _ H') as (hs2 & H'').
    exists (hs1 ++ hs2). by rewrite H'', with_Hooks_with_Hooks.
  - intros m b H. by apply Hx2, Hx1.
  - congruence.
Qed.

(** New map objects only. *)
Lemma frame_grow_maps (w : World) (f : list (gmap string any) → list (gmap string any)) :
  (∀ l m, maps w !! l = Some m → f (maps w) !! l = Some m) →
  frame w (set_maps f w).
Proof.
  intros Hf. repeat split; try done.
  - intros j F H. by exists F.
  - intros l L H. exists []. by rewrite with_Hooks_id.
Qed.

Lemma frame_new_maps (w : World) (ms : list (gmap string any)) :
  frame w (set_maps (λ h, h ++ ms) w).
Proof.
  apply frame_grow_maps. intros l m H.
  rewrite lookup_app_l; [done|by eapply lookup_lt_Some].
Qed.

Lemma frame_set_stdout (w : World) (f : string → string) : frame w (set_stdout f w).
Proof.
  repeat split; try done.
  - intros j F H. by exists F.
  - intros l L H. exists []. by rewrite with_Hooks_id.
Qed.

Lemma frame_set_stderr (w : World) (f : string → string) : frame w (set_stderr f w).
Proof.
  repeat split; try done.
  - intros j F H. by exists F.
  - intros l L H. exists []. by rewrite with_Hooks_id.
Qed.

Lemma os_File_Write_frame (f : loc) (p : string) (w w' : World) (r : option error) :
  os_File_Write f p w = Done r w' → frame w w'.
Proof.
  unfold os_File_Write, bind, load, get, modify, ret.
  destruct (files w !! f) as [F|] eqn:HF; [|discriminate].
  destruct (file_closed F) eqn:Hc; [intros [= _ <-]; apply frame_refl|].
  destruct (negb _); [intros [= _ <-]; apply frame_refl|].
  intros [= _ <-]. repeat split; try done.
  - intros j G HG. simpl. destruct (decide (j = f)) as [->|Hne].
    + rewrite list_lookup_insert_eq by (by eapply lookup_lt_Some).
      rewrite HF in HG. injection HG as <-. eexists. split; [reflexivity|]. by simpl.
    + rewrite list_lookup_insert_ne by done. by exists G.
  - intros l L H. exists []. by rewrite with_Hooks_id.
Qed.

Lemma Writer_Write_frame (x : Writer) (p : string) (w w' : World) (r : option error) :
  Writer_Write x p w = Done r w' → frame w w'.
Proof.
  destruct x as [| |f]; simpl.
  - intros [= _ <-]. apply frame_set_stdout.
  - intros [= _ <-]. apply frame_set_stderr.
  - apply os_File_Write_frame.
Qed.

Lemma multiWriter_Write_frame (xs : list Writer) (p : string) :
  ∀ (w w' : World) (r : option error),
    multiWriter_Write xs p w = Done r w' → frame w w'.
Proof.
  induction xs as [|x xs IH]; intros w w' r; simpl.
  - intros [= _ <-]. apply frame_refl.
  - unfold bind. destruct (Writer_Write x p w) as [e w1| |] eqn:Hx; try discriminate.
    pose proof (Writer_Write_frame _ _ _ _ _ Hx) as H1.
    destruct e as [e|].
    + intros [= _ <-]. exact H1.
    + intros H2. eapply frame_trans; [exact H1|]. by eapply IH.
Qed.

Lemma log_Logger_emit_frame (l : loc) (lv : log_Level) (line : string)
    (w w' : World) (r : unit) :
  log_Logger_emit l lv line w = Done r w' → frame w w'.
Proof.
  unfold log_Logger_emit, bind, load.
  destruct (loggers w !! l) as [L|]; [|discriminate].
  destruct (log_Logger_IsLevelEnabled L lv); [|intros [= _ <-]; apply frame_refl].
  destruct (io_Writer_Write (Out L) line w) as [e w1| |] eqn:Hx; try discriminate.
  assert (H1 : frame w w1).
  { destruct (Out L); simpl in Hx.
    - by eapply Writer_Write_frame.
    - by eapply multiWriter_Write_frame. }
  destruct e as [e|].
  - intros [= _ <-]. eapply frame_trans; [exact H1|]. apply frame_set_stderr.
  - by intros [= _ <-].
Qed.

Lemma frame_set_logger (w : World) (l : loc) (L : log_Logger) (hs : list log_Hook) :
  loggers w !! l = Some L →
  frame w (set_loggers (λ h, <[l := with_Hooks L (Hooks L ++ hs)]> h) w).
Proof.
  intros HL. repeat split; try done.
  - intros j F H. by exists F.
  - intros l' L' H. simpl. destruct (decide (l' = l)) as [->|Hne].
    + exists hs. rewrite list_lookup_insert_eq by (by eapply lookup_lt_Some).
      congruence.
    + exists []. rewrite list_lookup_insert_ne by done. by rewrite with_Hooks_id.
Qed.

Lemma AddHooks_range_frame (cl : ContextLogger) (hooks : list any)
    (w w' : World) (r : option error) :
  AddHooks_range cl hooks w = Done r w' →
  frame w w' ∧ mutexes w' = mutexes w.
Proof.
  destruct (loggers w !! cl_Logger cl) as [L|] eqn:HL.
  - rewrite (AddHooks_range_Done hooks cl w L HL). intros [= _ <-].
    split; [by apply frame_set_logger|done].
  - destruct hooks as [|v rest]; simpl.
    + intros [= _ <-]. split; [apply frame_refl|done].
    + destruct v; simpl; try (intros [= _ <-]; split; [apply frame_refl|done]).
      unfold bind, log_Logger_AddHook, update_logger, bind, load. by rewrite HL.
Qed.

Lemma ContextLogger_AddHooks_frame (cl : ContextLogger) (hooks : list any)
    (w w' : World) (r : option error) :
  ContextLogger_AddHooks cl hooks w = Done r w' → frame w w'.
Proof.
  unfold ContextLogger_AddHooks, bind, sync_Lock, sync_Unlock, bind, load, modify.
  destruct (mutexes w !! cl_mutex cl) as [[|]|] eqn:Hm; try discriminate.
  destruct (AddHooks_range cl hooks _) as [e w1| |] eqn:Hr; try discriminate.
  destruct (AddHooks_range_frame _ _ _ _ _ Hr) as [(Hf & Hmp & Hl & _ & Hu) Hmu].
  rewrite Hmu. simpl.
  rewrite list_lookup_insert_eq by (by eapply lookup_lt_Some).
  intros [= _ <-]. repeat split; try done.
  intros m b H. simpl. rewrite Hmu. simpl.
  rewrite list_insert_insert_eq.
  destruct (decide (m = cl_mutex cl)) as [->|Hne].
  - rewrite list_lookup_insert_eq by (by eapply lookup_lt_Some). congruence.
  - by rewrite list_lookup_insert_ne.
Qed.

Lemma entry_WithValues_frame (e : entry) (v : Values) (w w' : World) (r : entry) :
  entry_WithValues e v w = Done r w' → frame w w'.
Proof.
  unfold entry_WithValues, log_Entry_WithFields, bind, load, new_map, ret.
  destruct (maps w !! Data (e_Entry e)); [|discriminate].
  intros [= _ <-]. apply frame_new_maps.
Qed.

(** The loggers and locks after a call of [New] with a channel: one new
    logger, at most one new lock. *)
Lemma New_Some_loggers (ch : nat) (level : string) (outs : list string) (w : World) :
  ∃ r w' L ms,
    New (Some ch) level outs w = Done r w' ∧
    loggers w' = loggers w ++ [L] ∧ mutexes w' = mutexes w ++ ms.
Proof.
  unfold New, bind, log_New, new_logger, log_Logger_SetFormatter, update_logger,
    bind, load, modify. simpl.
  rewrite lookup_snoc_new.
  set (W1 := set_loggers _ (set_loggers _ w)).
  assert (HW1 : loggers W1
                = loggers w ++ [ {| Out := fileWriter os_Stderr; Hooks := [];
                                    Formatter := New_Formatter; ReportCaller := false;
                                    Level := log_InfoLevel |} ])
    by apply insert_snoc_new.
  rewrite New_range_Done.
  rewrite (first_refused_ext w W1), (opened_prefix_ext w W1) by done.
  set (w1 := foldl opened W1 _).
  destruct (foldl_opened_rest (opened_prefix w outs) W1) as (_ & Hl & Hmu & _).
  fold w1 in Hl, Hmu. rewrite HW1 in Hl.
  change (mutexes W1) with (mutexes w) in Hmu.
  clearbody w1. clear HW1. clearbody W1.
  destruct (first_refused w outs) as [[p errno]|] eqn:Hfr.
  - eexists _, _, _, []. split; [reflexivity|]. by rewrite app_nil_r.
  - unfold log_Logger_SetOut, log_Logger_SetReportCaller, log_Logger_SetLevel,
      update_logger, bind, load, modify. simpl.
    repeat (progress (rewrite ?Hl, ?lookup_snoc_new, ?insert_snoc_new; simpl)).
    destruct (log_ParseLevel level) as [lvl|perr].
    + repeat (progress (rewrite ?Hl, ?lookup_snoc_new, ?insert_snoc_new; simpl)).
      unfold new_mutex, ret. simpl.
      eexists _, _, _, [false]. split; [reflexivity|]. simpl.
      by rewrite Hmu, Hl, !insert_snoc_new.
    + eexists _, _, _, []. split; [reflexivity|]. simpl.
      by rewrite Hmu, Hl, !insert_snoc_new, app_nil_r.
Qed.

Lemma New_frame (b : chan) (level : string) (outs : list string) (w w' : World)
    (r : option ContextLogger * option error) :
  New b level outs w = Done r w' → frame w w'.
Proof.
  destruct b as [ch|]; [|intros [= _ <-]; apply frame_refl].
  intros H.
  destruct (New_Some ch level outs w) as (r1 & w1 & Hrun1 & Hf & Hm & Hu & _).
  destruct (New_Some_loggers ch level outs w) as (r2 & w2 & L & ms & Hrun2 & Hl & Hmu).
  rewrite H in Hrun1, Hrun2. injection Hrun1 as <- <-. injection Hrun2 as _ <-.
  repeat split.
  - intros j F HF. exists F. rewrite Hf.
    rewrite lookup_app_l; [done|by eapply lookup_lt_Some].
  - intros l m Hl'. by rewrite Hm.
  - intros l L' HL'. exists []. rewrite with_Hooks_id, Hl.
    rewrite lookup_app_l; [done|by eapply lookup_lt_Some].
  - intros m b Hb. rewrite Hmu.
    rewrite lookup_app_l; [done|by eapply lookup_lt_Some].
  - exact Hu.
Qed.

Lemma run_frame (c : call) (w w' : World) : run c w = Some w' → frame w w'.
Proof.
  destruct c as [b level outs|cl v|cl|cl ctx|cl hooks|cl lv line|e v|e|e ctx|e lv line];
    simpl.
  - destruct (New b level outs w) as [r w1| |] eqn:H; try discriminate.
    intros [= <-]. by eapply New_frame.
  - rewrite ContextLogger_WithValues_Done. intros [= <-].
    apply frame_grow_maps. intros l m H. by do 2 eapply lookup_snoc_old.
  - intros [= <-]. apply frame_new_maps.
  - unfold ContextLogger_NewContext, bind, ret.
    rewrite log_Logger_WithFields_Done. intros [= <-].
    apply frame_grow_maps. intros l m H. by do 2 eapply lookup_snoc_old.
  - destruct (ContextLogger_AddHooks cl hooks w) as [r w1| |] eqn:H; try discriminate.
    intros [= <-]. by eapply ContextLogger_AddHooks_frame.
  - destruct (bool_decide _); [|discriminate].
    destruct (ContextLogger_emit cl lv line w) as [r w1| |] eqn:H; try discriminate.
    intros [= <-]. by eapply log_Logger_emit_frame.
  - destruct (entry_WithValues e v w) as [r w1| |] eqn:H; try discriminate.
    intros [= <-]. by eapply entry_WithValues_frame.
  - intros [= <-]. apply frame_refl.
  - intros [= <-]. apply frame_refl.
  - destruct (bool_decide _); [|discriminate].
    destruct (entry_emit e lv line w) as [r w1| |] eqn:H; try discriminate.
    intros [= <-]. by eapply log_Logger_emit_frame.
Qed.

End frame_lemmas.

Lemma run_all_frame (cs : list call) :
  ∀ w w', run_all cs w = Some w' → frame w w'.
Proof.
  induction cs as [|c cs IH]; intros w w'; simpl.
  - intros [= <-]. apply frame_refl.
  - destruct (run c w) as [w1|] eqn:Hc; [|discriminate].
    intros H. eapply frame_trans; [by eapply run_frame|by apply IH].
Qed.

(** No call of the package closes a file or changes how it is open:
    after any sequence of calls that return, constructions, enrichments,
    hook registrations and emissions alike, a file of the store is still
    there with its name, flags, permission and open or closed state. *)
Theorem package_never_closes_files
    (cs : list call) (w w' : World) (j : loc) (F : File) :
  run_all cs w = Some w' →
  files w !! j = Some F →
  ∃ F',
    files w' !! j = Some F' ∧ file_name F' = file_name F ∧
    file_flag F' = file_flag F ∧ file_perm F' = file_perm F ∧
    file_closed F' = file_closed F.
Proof.
  intros H HF. destruct (run_all_frame cs w w' H) as (Hf & _). by apply Hf.
Qed.

Lemma package_never_closes_files_witness :
  run_all example_session example_session_start = Some example_session_end ∧
  files example_session_start !! 0%nat = Some (New_File "a.log") ∧
  ∃ F',
    files example_session_end !! 0%nat = Some F' ∧
    file_name F' = file_name (New_File "a.log") ∧
    file_flag F' = file_flag (New_File "a.log") ∧
    file_perm F' = file_perm (New_File "a.log") ∧
    file_closed F' = file_closed (New_File "a.log").
Proof.
  split; [vm_compute; reflexivity|]. split; [vm_compute; reflexivity|].
  apply (package_never_closes_files example_session example_session_start
           example_session_end 0%nat (New_File "a.log")).
  - vm_compute; reflexivity.
  - vm_compute; reflexivity.
Defined.

(** No call of the package writes into a map object that exists: after
    any sequence of calls that return, every map of the store, the field
    mapping of every entry included, has the content it had. *)
Theorem package_never_mutates_maps
    (cs : list call) (w w' : World) (l : loc) (m : gmap string any) :
  run_all cs w = Some w' →
  maps w !! l = Some m →
  maps w' !! l = Some m.
Proof.
  intros H Hm. destruct (run_all_frame cs w w' H) as (_ & Hmaps & _). by apply Hmaps.
Qed.

Lemma package_never_mutates_maps_witness :
  run_all [call_e_WithValues example_entry values_a1;
           call_cl_WithValues example_logger values_b2;
           call_cl_GetValues example_logger]
    example_store
  = Some (default example_store
            (run_all [call_e_WithValues example_entry values_a1;
                      call_cl_WithValues example_logger values_b2;
                      call_cl_GetValues example_logger]
               example_store)) ∧
  maps example_store !! 0%nat = Some ∅ ∧
  maps (default example_store
          (run_all [call_e_WithValues example_entry values_a1;
                    call_cl_WithValues example_logger values_b2;
                    call_cl_GetValues example_logger]
             example_store)) !! 0%nat = Some ∅.
Proof.
  split; [vm_compute; reflexivity|]. split; [reflexivity|].
  apply (package_never_mutates_maps
           [call_e_WithValues example_entry values_a1;
            call_cl_WithValues example_logger values_b2;
            call_cl_GetValues example_logger]
           example_store _ 0%nat ∅).
  - vm_compute; reflexivity.
  - reflexivity.
Defined.

(** After [New] the configuration of a logger is fixed and its hooks are
    only added to: after any sequence of calls that return, a logger of
    the store has the output, formatter, caller reporting and level it
    had, and its hook list starts with the hooks it had; and every lock
    is in the state it was in, [AddHooks] having released the lock it
    took on either way out. *)
Theorem package_keeps_loggers
    (cs : list call) (w w' : World) (l : loc) (L : log_Logger) :
  run_all cs w = Some w' →
  loggers w !! l = Some L →
  (∃ hs, loggers w' !! l
         = Some {| Out := Out L; Hooks := Hooks L ++ hs; Formatter := Formatter L;
                   ReportCaller := ReportCaller L; Level := Level L |}) ∧
  ∀ m, (m < length (mutexes w))%nat → mutexes w' !! m = mutexes w !! m.
Proof.
  intros H HL. destruct (run_all_frame cs w w' H) as (_ & _ & Hl & Hmu & _).
  split; [by apply Hl|].
  intros m Hm. destruct (lookup_lt_is_Some_2 _ _ Hm) as [b Hb].
  rewrite Hb. by apply Hmu.
Qed.

Lemma package_keeps_loggers_witness :
  run_all example_session example_session_start = Some example_session_end ∧
  loggers example_session_start !! 0%nat = Some (New_Logger 0 1 log_InfoLevel) ∧
  (∃ hs, loggers example_session_end !! 0%nat
         = Some {| Out := Out (New_Logger 0 1 log_InfoLevel);
                   Hooks := Hooks (New_Logger 0 1 log_InfoLevel) ++ hs;
                   Formatter := Formatter (New_Logger 0 1 log_InfoLevel);
                   ReportCaller := ReportCaller (New_Logger 0 1 log_InfoLevel);
                   Level := Level (New_Logger 0 1 log_InfoLevel) |}) ∧
  ∀ m, (m < length (mutexes example_session_start))%nat →
       mutexes example_session_end !! m = mutexes example_session_start !! m.
Proof.
  split; [vm_compute; reflexivity|]. split; [vm_compute; reflexivity|].
  apply (package_keeps_loggers example_session example_session_start
           example_session_end 0%nat (New_Logger 0 1 log_InfoLevel)).
  - vm_compute; reflexivity.
  - vm_compute; reflexivity.
Defined.
